(** * Headshot viewer: selection and settings workflow

    A shallow embedding of the non-presentational part of
    [src/headshot_viewer.py]: the [HeadshotData] records, the stub backend
    ([HeadshotAPIClient], [ImageProcessor], [PresetManager], [FileManager],
    [SettingsManager], [APIService]) and the slots of the three tabs and of
    the main window that read or write that data.

    Python objects are mutable and shared: a [HeadshotData] created by
    [FileManager.load_images] is referenced from the gallery's
    [headshot_data] list and, later, from the editor's and the hue tab's
    [current_image].  Records therefore live in an object store ([heap]) and
    every other component holds references ([loc]) into it.

    Every method is a computation in [Run]: it threads the application state
    and appends to a trace of observable events (backend requests, signal
    emissions, log records). *)

From stdpp Require Import base gmap strings list fin_maps pretty.

#[local] Set Warnings "-clear-no-such-hyp".

Local Open Scope string_scope.
Local Open Scope Z_scope.
Local Open Scope list_scope.

(** ** Values *)

(** The values stored in the program's [Dict[str, Any]] dictionaries. *)
Inductive PyVal : Type :=
| PInt (z : Z)
| PStr (s : string)
| PBool (b : bool).

#[global] Instance PyVal_eq_dec : EqDecision PyVal.
Proof. solve_decision. Defined.

(** [Dict[str, Any]]. *)
Abbreviation Settings := (gmap string PyVal).

(** A reference to a [HeadshotData] object. *)
Abbreviation loc := nat.

(** ** [class HeadshotData] *)

Record HeadshotData : Type := mkHeadshotData {
  file_path : string;
  metadata : Settings;
  thumbnail_path : option string;
  is_selected : bool;
  edit_settings : Settings;
}.

(** [HeadshotData.__init__(file_path)], with [metadata = None]. *)
Definition HeadshotData_init (path : string) : HeadshotData :=
  {| file_path := path; metadata := ∅; thumbnail_path := None;
     is_selected := false; edit_settings := ∅ |}.

Definition with_is_selected (b : bool) (d : HeadshotData) : HeadshotData :=
  {| file_path := file_path d; metadata := metadata d;
     thumbnail_path := thumbnail_path d;
     is_selected := b; edit_settings := edit_settings d |}.

Definition with_metadata (m : Settings) (d : HeadshotData) : HeadshotData :=
  {| file_path := file_path d; metadata := m;
     thumbnail_path := thumbnail_path d;
     is_selected := is_selected d; edit_settings := edit_settings d |}.

Definition with_edit_settings (e : Settings) (d : HeadshotData) : HeadshotData :=
  {| file_path := file_path d; metadata := metadata d;
     thumbnail_path := thumbnail_path d;
     is_selected := is_selected d; edit_settings := e |}.

(** ** [class APIResponse] *)

Inductive ResponseData : Type :=
| DataNone
| DataImage (image_data : loc)
| DataImages (images : list loc)
| DataDict (d : Settings).

Record APIResponse : Type := mkAPIResponse {
  success : bool;
  data : ResponseData;
  error : option string;
}.

(** ** Application state *)

Record State : Type := mkState {
  (** the [HeadshotData] objects, in allocation order *)
  heap : list HeadshotData;
  (** [PresetManager.presets] *)
  presets : gmap string Settings;
  (** [SettingsManager.settings] *)
  settings : Settings;
  (** [HeadshotGalleryTab.gallery_items]: the [selected] attribute of each
      [MaterialImageLabel] *)
  gallery_items : list bool;
  (** [HeadshotGalleryTab.headshot_data] *)
  headshot_data : list loc;
  (** [EditorTab.current_image], [EditorTab.edit_settings] and the text of
      [EditorTab.preview_label] *)
  editor_current_image : option loc;
  editor_edit_settings : Settings;
  editor_preview_label : option string;
  (** [HueTab.current_image], the value of [HueTab.hue_slider], the text of
      [HueTab.hue_value] and of [HueTab.preview_label] *)
  hue_current_image : option loc;
  hue_slider : option Z;
  hue_value : option string;
  hue_preview_label : option string;
  (** [MainWindow.current_directory] and the text of
      [MainWindow.dir_path_label] *)
  current_directory : option string;
  dir_path_label : string;
}.

Definition set_heap (f : list HeadshotData → list HeadshotData) (s : State) : State :=
  mkState (f (heap s)) (presets s) (settings s) (gallery_items s)
    (headshot_data s) (editor_current_image s) (editor_edit_settings s)
    (editor_preview_label s) (hue_current_image s) (hue_slider s)
    (hue_value s) (hue_preview_label s) (current_directory s) (dir_path_label s).

Definition set_presets (p : gmap string Settings) (s : State) : State :=
  mkState (heap s) p (settings s) (gallery_items s)
    (headshot_data s) (editor_current_image s) (editor_edit_settings s)
    (editor_preview_label s) (hue_current_image s) (hue_slider s)
    (hue_value s) (hue_preview_label s) (current_directory s) (dir_path_label s).

Definition set_settings (p : Settings) (s : State) : State :=
  mkState (heap s) (presets s) p (gallery_items s)
    (headshot_data s) (editor_current_image s) (editor_edit_settings s)
    (editor_preview_label s) (hue_current_image s) (hue_slider s)
    (hue_value s) (hue_preview_label s) (current_directory s) (dir_path_label s).

Definition set_gallery_items (f : list bool → list bool) (s : State) : State :=
  mkState (heap s) (presets s) (settings s) (f (gallery_items s))
    (headshot_data s) (editor_current_image s) (editor_edit_settings s)
    (editor_preview_label s) (hue_current_image s) (hue_slider s)
    (hue_value s) (hue_preview_label s) (current_directory s) (dir_path_label s).

Definition set_headshot_data (l : list loc) (s : State) : State :=
  mkState (heap s) (presets s) (settings s) (gallery_items s)
    l (editor_current_image s) (editor_edit_settings s)
    (editor_preview_label s) (hue_current_image s) (hue_slider s)
    (hue_value s) (hue_preview_label s) (current_directory s) (dir_path_label s).

Definition set_editor_current_image (c : option loc) (s : State) : State :=
  mkState (heap s) (presets s) (settings s) (gallery_items s)
    (headshot_data s) c (editor_edit_settings s)
    (editor_preview_label s) (hue_current_image s) (hue_slider s)
    (hue_value s) (hue_preview_label s) (current_directory s) (dir_path_label s).

Definition set_editor_edit_settings (e : Settings) (s : State) : State :=
  mkState (heap s) (presets s) (settings s) (gallery_items s)
    (headshot_data s) (editor_current_image s) e
    (editor_preview_label s) (hue_current_image s) (hue_slider s)
    (hue_value s) (hue_preview_label s) (current_directory s) (dir_path_label s).

Definition set_editor_preview_label (t : option string) (s : State) : State :=
  mkState (heap s) (presets s) (settings s) (gallery_items s)
    (headshot_data s) (editor_current_image s) (editor_edit_settings s)
    t (hue_current_image s) (hue_slider s)
    (hue_value s) (hue_preview_label s) (current_directory s) (dir_path_label s).

Definition set_hue_current_image (c : option loc) (s : State) : State :=
  mkState (heap s) (presets s) (settings s) (gallery_items s)
    (headshot_data s) (editor_current_image s) (editor_edit_settings s)
    (editor_preview_label s) c (hue_slider s)
    (hue_value s) (hue_preview_label s) (current_directory s) (dir_path_label s).

Definition set_hue_slider (v : option Z) (s : State) : State :=
  mkState (heap s) (presets s) (settings s) (gallery_items s)
    (headshot_data s) (editor_current_image s) (editor_edit_settings s)
    (editor_preview_label s) (hue_current_image s) v
    (hue_value s) (hue_preview_label s) (current_directory s) (dir_path_label s).

Definition set_hue_value (t : option string) (s : State) : State :=
  mkState (heap s) (presets s) (settings s) (gallery_items s)
    (headshot_data s) (editor_current_image s) (editor_edit_settings s)
    (editor_preview_label s) (hue_current_image s) (hue_slider s)
    t (hue_preview_label s) (current_directory s) (dir_path_label s).

Definition set_hue_preview_label (t : option string) (s : State) : State :=
  mkState (heap s) (presets s) (settings s) (gallery_items s)
    (headshot_data s) (editor_current_image s) (editor_edit_settings s)
    (editor_preview_label s) (hue_current_image s) (hue_slider s)
    (hue_value s) t (current_directory s) (dir_path_label s).

Definition set_current_directory (d : option string) (s : State) : State :=
  mkState (heap s) (presets s) (settings s) (gallery_items s)
    (headshot_data s) (editor_current_image s) (editor_edit_settings s)
    (editor_preview_label s) (hue_current_image s) (hue_slider s)
    (hue_value s) (hue_preview_label s) d (dir_path_label s).

Definition set_dir_path_label (t : string) (s : State) : State :=
  mkState (heap s) (presets s) (settings s) (gallery_items s)
    (headshot_data s) (editor_current_image s) (editor_edit_settings s)
    (editor_preview_label s) (hue_current_image s) (hue_slider s)
    (hue_value s) (hue_preview_label s) (current_directory s) t.

(** ** Observable events *)

Inductive Level : Type := INFO | WARNING | ERROR.

(** The methods of [HeadshotAPIClient]; each stub prints its request. *)
Inductive ApiRequest : Type :=
| get_image_metadata_request (image_path : string)
| apply_preset_request (image_path : string) (preset_name : string)
| adjust_hue_request (image_path : string) (hue_value : Z)
| save_edited_image_request (save_path : string)
| get_similar_images_request (image_path : string).

(** A progress percentage: either an integer literal, or
    [int((i + 1) / len(images) * 100)], which the program computes in
    floating point and which is kept here as its two operands. *)
Inductive Progress : Type :=
| Percent (p : Z)
| Ratio (done total : nat).

(** The signals the program emits itself. *)
Inductive Signal : Type :=
| processing_started
| processing_progress (progress : Progress)
| processing_finished (image_data : loc)
| presets_loaded (preset_names : list string)
| preset_applied (preset_name : string)
| preset_saved (preset_name : string)
| directory_scanned (files : list string)
| scan_progress (progress : Progress)
| files_loaded (images : list loc)
| file_saved (path : string)
| service_ready
| operation_completed (operation_name : string) (images : list loc).

(** The values interpolated into a printed or logged f-string. *)
Inductive Arg : Type :=
| AInt (z : Z)
| AStr (s : string)
| ADict (d : Settings)
| ANames (l : list string)
| AProgress (p : Progress).

Inductive Event : Type :=
| Api (request : ApiRequest)
| Emit (sig : Signal)
| Log (level : Level) (template : string) (args : list Arg)
| Print (template : string) (args : list Arg).

(** ** The [Run] monad: state passing with an event trace *)

Definition Run (A : Type) : Type := State → A * State * list Event.

Definition ret {A} (a : A) : Run A := λ s, (a, s, []).

Definition bind {A B} (m : Run A) (k : A → Run B) : Run B :=
  λ s, let '(a, s1, t1) := m s in
       let '(b, s2, t2) := k a s1 in
       (b, s2, t1 ++ t2).

#[global] Instance Run_ret : MRet Run := @ret.
#[global] Instance Run_bind : MBind Run := λ A B k m, bind m k.

Definition get : Run State := λ s, (s, s, []).
Definition modify (f : State → State) : Run unit := λ s, (tt, f s, []).
Definition event (e : Event) : Run unit := λ s, (tt, s, [e]).

Definition result {A} (r : A * State * list Event) : A := r.1.1.
Definition state_of {A} (r : A * State * list Event) : State := r.1.2.
Definition trace {A} (r : A * State * list Event) : list Event := r.2.

(** [for x in l: body x], with the position of [x] as [enumerate] gives it. *)
Fixpoint for_each {A} (i : nat) (l : list A) (body : nat → A → Run unit) : Run unit :=
  match l with
  | [] => mret tt
  | x :: l' => body i x ;; for_each (S i) l' body
  end.

(** ** Python and Qt helpers *)

(** [str(n)] for an integer. *)
Definition str (z : Z) : string := pretty z.

(** The line break inside the label texts. *)
Definition nl : string := String (Ascii.ascii_of_nat 10) EmptyString.

(** [f"{i:03d}"]. *)
Definition format_03d (i : nat) : string :=
  let d := pretty i in
  String.concat "" (replicate (3 - String.length d)%nat "0") +:+ d.

(** [os.path.join(a, b)] for two components (POSIX). *)
Definition os_path_join (a b : string) : string :=
  if String.prefix "/" b then b
  else if bool_decide (a = "") then b
  else if String.prefix "/" (String.rev a) then a +:+ b
  else a +:+ "/" +:+ b.

(** [Qt.ControlModifier] and [Qt.NoModifier], as values of the
    [Qt.KeyboardModifiers] flags. *)
Definition Qt_NoModifier : Z := 0.
Definition Qt_ShiftModifier : Z := 0x02000000.
Definition Qt_ControlModifier : Z := 0x04000000.

(** [logger.info], [logger.warning], [logger.error]. *)
Definition logger (lvl : Level) (template : string) (args : list Arg) : Run unit :=
  event (Log lvl template args).

(** [print]. *)
Definition print (template : string) (args : list Arg) : Run unit :=
  event (Print template args).

(** ** Object store *)

(** [HeadshotData(file_path)]: a fresh object. *)
Definition alloc (d : HeadshotData) : Run loc :=
  λ s, (length (heap s), set_heap (λ h, h ++ [d]) s, []).

(** Attribute reads through a reference. *)
Definition is_selected_of (s : State) (r : loc) : bool :=
  from_option is_selected false (heap s !! r).
Definition file_path_of (s : State) (r : loc) : string :=
  from_option file_path "" (heap s !! r).
Definition edit_settings_of (s : State) (r : loc) : Settings :=
  from_option edit_settings ∅ (heap s !! r).

(** Attribute writes through a reference. *)
Definition write_is_selected (r : loc) (b : bool) : Run unit :=
  modify (set_heap (alter (with_is_selected b) r)).
Definition write_metadata (r : loc) (m : Settings) : Run unit :=
  modify (set_heap (alter (with_metadata m) r)).
Definition write_edit_settings (r : loc) (e : Settings) : Run unit :=
  modify (set_heap (alter (with_edit_settings e) r)).

(** ** [class MaterialImageLabel] *)

(** [self.gallery_items[i].set_selected(selected)]. *)
Definition set_selected (i : nat) (selected : bool) : Run unit :=
  modify (set_gallery_items (<[i := selected]>)).

(** ** [class HeadshotGalleryTab]: selection *)

(** [HeadshotGalleryTab.refresh_gallery]. *)
Definition refresh_gallery : Run unit :=
  s ← get;
  logger INFO "Refreshing gallery with {len(self.headshot_data)} images"
    [AInt (Z.of_nat (length (headshot_data s)))].

(** [HeadshotGalleryTab.on_images_loaded]; an empty [images] is falsy and
    is replaced by a new empty list. *)
Definition HeadshotGalleryTab_on_images_loaded (images : list loc) : Run unit :=
  modify (set_headshot_data (if decide (images = []) then [] else images));;
  refresh_gallery.

(** The bounds test of [select_image]. *)
Definition out_of_bounds (index : Z) (s : State) : Prop :=
  index < 0 ∨ index >= Z.of_nat (length (gallery_items s))
  ∨ index >= Z.of_nat (length (headshot_data s)).

#[global] Instance out_of_bounds_dec index s : Decision (out_of_bounds index s).
Proof. unfold out_of_bounds. apply _. Defined.

(** The body and the loop of the single-selection branch. *)
Definition clear_one (i : nat) (data : loc) : Run unit :=
  write_is_selected data false;;
  s ← get;
  if decide (i < length (gallery_items s))%nat then set_selected i false
  else mret tt.

(** [for i, data in enumerate(self.headshot_data)]. *)
Definition clear_selection (refs : list loc) : Run unit :=
  for_each 0 refs clear_one.

(** [HeadshotGalleryTab.select_image]; [modifiers] is what
    [QApplication.keyboardModifiers()] returns at the click. *)
Definition select_image (index : Z) (modifiers : Z) : Run unit :=
  s ← get;
  if decide (out_of_bounds index s) then
    logger WARNING "Image selection index out of bounds: {index}" [AInt index]
  else
    match headshot_data s !! Z.to_nat index with
    | None => logger ERROR "Error selecting image at index {index}: {e}"
                [AInt index; AStr "list index out of range"]
    | Some r =>
        if decide (modifiers = Qt_ControlModifier) then
          let current_state := is_selected_of s r in
          write_is_selected r (negb current_state);;
          set_selected (Z.to_nat index) (negb current_state)
        else
          clear_selection (headshot_data s);;
          write_is_selected r true;;
          set_selected (Z.to_nat index) true
    end.

(** [MainWindow.get_selected_images]: the current selection. *)
Definition get_selected_images (s : State) : list loc :=
  filter (λ r, is_selected_of s r = true) (headshot_data s).

(** ** Slots connected to the backend's signals *)

(** [HeadshotGalleryTab.on_presets_loaded]. *)
Definition on_presets_loaded (preset_names : list string) : Run unit :=
  logger INFO "Loaded presets: {preset_names}" [ANames preset_names].

(** [HeadshotGalleryTab.on_preset_applied]. *)
Definition on_preset_applied (preset_name : string) : Run unit :=
  logger INFO "Preset '{preset_name}' applied successfully" [AStr preset_name];;
  refresh_gallery.

(** [EditorTab.refresh_preview]. *)
Definition refresh_preview : Run unit :=
  s ← get;
  match editor_preview_label s with
  | None => mret tt
  | Some _ =>
      match editor_current_image s with
      | Some r =>
          modify (set_editor_preview_label
                    (Some ("Image Preview" +:+ nl +:+ file_path_of s r)))
      | None =>
          modify (set_editor_preview_label
                    (Some ("Image Preview" +:+ nl +:+ "No image selected")))
      end
  end.

(** [EditorTab.on_processing_finished]. *)
Definition on_processing_finished (image_data : loc) : Run unit :=
  s ← get;
  logger INFO "Processing finished for {image_data.file_path}"
    [AStr (file_path_of s image_data)];;
  refresh_preview.

(** [EditorTab.on_processing_progress]. *)
Definition on_processing_progress (progress : Progress) : Run unit :=
  logger INFO "Processing progress: {progress}%" [AProgress progress].

(** [MainWindow.on_images_loaded]. *)
Definition MainWindow_on_images_loaded (images : list loc) : Run unit :=
  print "Loaded {len(images)} images from directory" [AInt (Z.of_nat (length images))];;
  HeadshotGalleryTab_on_images_loaded images.

(** [MainWindow.on_operation_completed]. *)
Definition on_operation_completed (operation_name : string) : Run unit :=
  print "Operation '{operation_name}' completed with result: {type(result)}"
    [AStr operation_name; AStr "<class 'list'>"].

(** [MainWindow.on_service_ready]. *)
Definition on_service_ready : Run unit :=
  print "API service is ready" [].

(** [Signal.emit]: the slots run at once, in the order the program connected
    them ([HeadshotGalleryTab._connect_api_signals],
    [EditorTab._connect_api_signals], [MainWindow._connect_api_signals]). *)
Definition emit (sig : Signal) : Run unit :=
  event (Emit sig);;
  match sig with
  | processing_progress progress => on_processing_progress progress
  | processing_finished image_data => on_processing_finished image_data
  | presets_loaded preset_names => on_presets_loaded preset_names
  | preset_applied preset_name => on_preset_applied preset_name
  | files_loaded images =>
      HeadshotGalleryTab_on_images_loaded images;;
      MainWindow_on_images_loaded images
  | service_ready => on_service_ready
  | operation_completed operation_name _ => on_operation_completed operation_name
  | processing_started | preset_saved _ | directory_scanned _
  | scan_progress _ | file_saved _ => mret tt
  end.

(** ** [class HeadshotAPIClient] (stubs) *)

(** The dictionary [get_image_metadata] fabricates. *)
Definition mock_metadata : Settings :=
  <["width" := PInt 1920]> (<["height" := PInt 1080]>
  (<["file_size" := PInt 2048576]> (<["created_date" := PStr "2024-01-15"]>
  (<["camera_model" := PStr "Canon EOS R5"]> ∅)))).

(** [HeadshotAPIClient.get_image_metadata]. *)
Definition get_image_metadata (image_path : string) : Run APIResponse :=
  event (Api (get_image_metadata_request image_path));;
  mret (mkAPIResponse true (DataDict mock_metadata) None).

(** [HeadshotAPIClient.apply_preset]. *)
Definition HeadshotAPIClient_apply_preset (image_data : loc) (preset_name : string)
  : Run APIResponse :=
  s ← get;
  event (Api (apply_preset_request (file_path_of s image_data) preset_name));;
  mret (mkAPIResponse true (DataImage image_data) None).

(** [HeadshotAPIClient.adjust_hue]. *)
Definition adjust_hue (image_data : loc) (hue : Z) : Run APIResponse :=
  s ← get;
  event (Api (adjust_hue_request (file_path_of s image_data) hue));;
  mret (mkAPIResponse true (DataImage image_data) None).

(** [HeadshotAPIClient.save_edited_image]; [output_path or image_data.file_path]
    falls back to the record's path for [None] and for the empty string. *)
Definition save_edited_image (image_data : loc) (output_path : option string)
  : Run APIResponse :=
  s ← get;
  let save_path :=
    match output_path with
    | Some p => if decide (p = "") then file_path_of s image_data else p
    | None => file_path_of s image_data
    end in
  event (Api (save_edited_image_request save_path));;
  mret (mkAPIResponse true (DataDict (<["saved_path" := PStr save_path]> ∅)) None).

(** [HeadshotAPIClient.get_similar_images]: three new records. *)
Definition get_similar_images (reference_image : loc) : Run APIResponse :=
  s ← get;
  event (Api (get_similar_images_request (file_path_of s reference_image)));;
  r1 ← alloc (HeadshotData_init "similar_image_1.jpg");
  r2 ← alloc (HeadshotData_init "similar_image_2.jpg");
  r3 ← alloc (HeadshotData_init "similar_image_3.jpg");
  mret (mkAPIResponse true (DataImages [r1; r2; r3]) None).

(** ** [class ImageProcessor] *)

(** [ImageProcessor.process_single_image]. *)
Definition process_single_image (image_data : loc) (settings : Settings) : Run unit :=
  s ← get;
  print "Processing: {image_data.file_path} with settings {settings}"
    [AStr (file_path_of s image_data); ADict settings];;
  emit processing_started;;
  for_each 0 [0; 20; 40; 60; 80; 100] (λ _ progress,
    emit (processing_progress (Percent progress)));;
  emit (processing_finished image_data).

(** [ImageProcessor.process_batch]. *)
Definition process_batch (images : list loc) (settings : Settings) : Run unit :=
  print "Batch processing: {len(images)} images" [AInt (Z.of_nat (length images))];;
  for_each 0 images (λ i image_data,
    emit (processing_progress (Ratio (i + 1) (length images)));;
    process_single_image image_data settings).

(** ** [class PresetManager] *)

(** The catalog [load_presets] fabricates. *)
Definition mock_presets : gmap string Settings :=
  <["Portrait Enhance" :=
      <["brightness" := PInt 10]> (<["contrast" := PInt 15]> (<["saturation" := PInt 5]> ∅))]>
  (<["Studio Light" :=
      <["brightness" := PInt 20]> (<["contrast" := PInt 10]> (<["warmth" := PInt 8]> ∅))]>
  (<["Natural Look" :=
      <["brightness" := PInt 5]> (<["contrast" := PInt 5]> (<["saturation" := PInt 2]> ∅))]>
   ∅)).

(** [PresetManager.load_presets]. *)
Definition load_presets : Run (list string) :=
  print "Loading presets from API" [];;
  modify (set_presets mock_presets);;
  let preset_names := ["Portrait Enhance"; "Studio Light"; "Natural Look"] in
  emit (presets_loaded preset_names);;
  mret preset_names.

(** [PresetManager.apply_preset]; the local [settings] is read and not used. *)
Definition PresetManager_apply_preset (preset_name : string) (image_data : loc)
  : Run bool :=
  s ← get;
  match presets s !! preset_name with
  | None => mret false
  | Some settings =>
      response ← HeadshotAPIClient_apply_preset image_data preset_name;
      if success response then
        emit (preset_applied preset_name);;
        mret true
      else mret false
  end.

(** [PresetManager.save_preset]. *)
Definition save_preset (preset_name : string) (settings : Settings) : Run bool :=
  print "Saving preset '{preset_name}' with settings {settings}"
    [AStr preset_name; ADict settings];;
  modify (λ s, set_presets (<[preset_name := settings]> (presets s)) s);;
  emit (preset_saved preset_name);;
  mret true.

(** [PresetManager.get_preset_settings]: [self.presets.get(preset_name)]. *)
Definition get_preset_settings (preset_name : string) (s : State) : option Settings :=
  presets s !! preset_name.

(** ** [class FileManager] *)

(** The paths [scan_directory] fabricates:
    [headshot_{i:03d}.jpg for i in range(1, 25)]. *)
Definition mock_files (directory_path : string) : list string :=
  (λ i, os_path_join directory_path ("headshot_" +:+ format_03d i +:+ ".jpg"))
    <$> seq 1 24.

(** [FileManager.scan_directory]. *)
Definition scan_directory (directory_path : string) : Run (list string) :=
  print "Scanning directory: {directory_path}" [AStr directory_path];;
  emit (directory_scanned (mock_files directory_path));;
  mret (mock_files directory_path).

(** The body of the loop of [load_images], up to [images.append]. *)
Definition load_image (i total : nat) (file_path : string) : Run loc :=
  emit (scan_progress (Ratio (i + 1) total));;
  image_data ← alloc (HeadshotData_init file_path);
  metadata_response ← get_image_metadata file_path;
  (if success metadata_response then
     match data metadata_response with
     | DataDict m => write_metadata image_data m
     | _ => mret tt
     end
   else mret tt);;
  mret image_data.

(** The loop of [load_images]; the list under construction is threaded
    through. *)
Fixpoint load_images_loop (i : nat) (total : nat) (file_paths : list string)
    (images : list loc) : Run (list loc) :=
  match file_paths with
  | [] => mret images
  | file_path :: rest =>
      image_data ← load_image i total file_path;
      load_images_loop (S i) total rest (images ++ [image_data])
  end.

(** [FileManager.load_images]. *)
Definition load_images (file_paths : list string) : Run (list loc) :=
  print "Loading {len(file_paths)} images" [AInt (Z.of_nat (length file_paths))];;
  images ← load_images_loop 0 (length file_paths) file_paths [];
  emit (files_loaded images);;
  mret images.

(** [FileManager.save_image]. *)
Definition save_image (image_data : loc) (output_path : option string) : Run bool :=
  response ← save_edited_image image_data output_path;
  if success response then
    match data response with
    | DataDict d =>
        match d !! "saved_path" with
        | Some (PStr saved_path) => emit (file_saved saved_path)
        | _ => mret tt
        end
    | _ => mret tt
    end;;
    mret true
  else mret false.

(** ** [class SettingsManager] *)

(** [SettingsManager.__init__]. *)
Definition SettingsManager_init : Settings :=
  <["last_directory" := PStr ""]> (<["auto_save" := PBool true]>
  (<["preview_quality" := PStr "high"]> (<["batch_size" := PInt 10]>
  (<["api_timeout" := PInt 30]> ∅)))).

(** [SettingsManager.get_setting]. *)
Definition get_setting (key : string) (default : option PyVal) (s : State)
  : option PyVal :=
  match settings s !! key with
  | Some v => Some v
  | None => default
  end.

(** [SettingsManager.save_settings]. *)
Definition save_settings : Run unit :=
  s ← get;
  print "Saving settings: {self.settings}" [ADict (settings s)].

(** [SettingsManager.set_setting]. *)
Definition set_setting (key : string) (value : PyVal) : Run unit :=
  modify (λ s, set_settings (<[key := value]> (settings s)) s);;
  save_settings.

(** [SettingsManager.load_settings]. *)
Definition load_settings : Run unit :=
  print "Loading settings from disk" [].

(** ** [class APIService] *)

(** [APIService.initialize]. *)
Definition initialize : Run bool :=
  print "Initializing API service..." [];;
  load_settings;;
  load_presets;;
  emit service_ready;;
  mret true.

(** [APIService.shutdown]. *)
Definition shutdown : Run unit :=
  print "Shutting down API service..." [];;
  save_settings.

(** [APIService.load_directory]. *)
Definition load_directory (directory_path : string) : Run unit :=
  files ← scan_directory directory_path;
  images ← load_images files;
  emit (operation_completed "load_directory" images).

(** [APIService.apply_batch_edits]. *)
Definition apply_batch_edits (images : list loc) (settings : Settings) : Run unit :=
  process_batch images settings;;
  emit (operation_completed "batch_edit" images).

(** ** [class HeadshotGalleryTab]: actions *)

(** [HeadshotGalleryTab.apply_preset_to_selected]. *)
Definition apply_preset_to_selected (preset_name : string) : Run unit :=
  s ← get;
  let selected_images := get_selected_images s in
  for_each 0 selected_images (λ _ image_data,
    PresetManager_apply_preset preset_name image_data;; mret tt).

(** The [settings] literal of [submit_gallery_settings]. *)
Definition gallery_form_settings : Settings :=
  <["filter_type" := PStr "example_filter"]>
  (<["sort_order" := PStr "date_desc"]>
  (<["enable_feature" := PBool true]> ∅)).

(** [HeadshotGalleryTab.submit_gallery_settings]; an empty selection is falsy. *)
Definition submit_gallery_settings : Run unit :=
  s ← get;
  let settings := gallery_form_settings in
  let selected_images := get_selected_images s in
  if decide (selected_images = []) then mret tt
  else apply_batch_edits selected_images settings.

(** [HeadshotGalleryTab.reset_gallery_settings]. *)
Definition reset_gallery_settings : Run unit :=
  logger INFO "Resetting gallery settings to defaults" [].

(** ** [class EditorTab] *)

(** [EditorTab.update_ui_from_settings]. *)
Definition update_ui_from_settings : Run unit :=
  s ← get;
  logger INFO "Updating UI with settings: {self.edit_settings}"
    [ADict (editor_edit_settings s)].

(** [EditorTab.load_image_settings]: the editor takes a copy of the record's
    settings. *)
Definition load_image_settings : Run unit :=
  s ← get;
  match editor_current_image s with
  | Some r =>
      modify (set_editor_edit_settings (edit_settings_of s r));;
      update_ui_from_settings
  | None => mret tt
  end.

(** [EditorTab.set_current_image]. *)
Definition EditorTab_set_current_image (image_data : loc) : Run unit :=
  modify (set_editor_current_image (Some image_data));;
  load_image_settings;;
  refresh_preview.

(** [EditorTab.apply_similar_settings]. *)
Definition apply_similar_settings : Run unit :=
  s ← get;
  match editor_current_image s with
  | Some r =>
      response ← get_similar_images r;
      if success response then
        match data response with
        | DataImages l =>
            logger INFO "Found {len(response.data)} similar images"
              [AInt (Z.of_nat (length l))]
        | _ => mret tt
        end
      else mret tt
  | None => mret tt
  end.

(** [EditorTab.reset_editor_settings]. *)
Definition reset_editor_settings : Run unit :=
  modify (set_editor_edit_settings ∅);;
  update_ui_from_settings;;
  s ← get;
  match editor_current_image s with
  | Some r => write_edit_settings r ∅
  | None => mret tt
  end;;
  logger INFO "Reset editor settings to defaults" [].

(** [EditorTab.save_current_edits]: the record takes a copy of the editor's
    settings. *)
Definition save_current_edits : Run unit :=
  s ← get;
  match editor_current_image s with
  | Some r =>
      write_edit_settings r (editor_edit_settings s);;
      save_image r None ≫= λ save_response : bool,
      if save_response then
        logger INFO "Saved edits for {self.current_image.file_path}"
          [AStr (file_path_of s r)]
      else
        logger WARNING "Failed to save edits" []
  | None => mret tt
  end.

(** [EditorTab.on_slider_changed]. *)
Definition on_slider_changed (parameter_name : string) (value : Z) : Run unit :=
  modify (λ s, set_editor_edit_settings
                 (<[parameter_name := PInt value]> (editor_edit_settings s)) s);;
  s ← get;
  match editor_current_image s with
  | Some r => process_single_image r (<[parameter_name := PInt value]> ∅)
  | None => mret tt
  end.

(** The sliders [EditorTab._build_left_column] creates, each with the range
    [create_slider_widget(-100, 100, 0, ...)] gives it. *)
Definition section_configs : list (string * list string) :=
  [ ("Basic Adjustments", ["Brightness"; "Contrast"; "Saturation"; "Exposure"]);
    ("Color Grading", ["Highlights"; "Shadows"; "Whites"; "Blacks"]);
    ("Details & Effects", ["Clarity"; "Texture"; "Vibrance"; "Dehaze"]) ].

Definition editor_parameters : list string := section_configs ≫= snd.
Definition editor_slider_min : Z := -100.
Definition editor_slider_max : Z := 100.

(** ** [class HueTab]

    The widgets are the attributes the methods read and write: the slider
    by its value, the text field and the preview label by their text.

    The slider and the text field are connected to the tab's slots
    ([create_slider_widget] and [_build_hue_controls]):
    - [slider.valueChanged] to [update_hue], then to
      [_update_slider_value_field];
    - [hue_value.textChanged] to [update_slider_from_text].
    Qt calls the slots of a signal, in the order of their connection,
    inside the call that emits it, so the slots call each other through the
    widgets: [update_hue] sets the text, which calls
    [update_slider_from_text], which sets the slider, which calls
    [update_hue] again.  Each slot is written below over the widget call it
    makes, and [valueChanged] closes the cycle.  The preview label has no
    slot connected. *)

(** The range [HueTab._build_hue_controls] gives the hue slider. *)
Definition hue_min : Z := -180.
Definition hue_max : Z := 180.

(** The degree sign of the preview texts. *)
Definition degree : string := "°".

(** [HueTab.update_preview]. *)
Definition update_preview : Run unit :=
  s ← get;
  match hue_preview_label s with
  | None => mret tt
  | Some _ =>
      match hue_current_image s, hue_slider s with
      | Some r, Some hue =>
          modify (set_hue_preview_label
            (Some ("Hue Preview" +:+ nl +:+ file_path_of s r +:+ nl
                   +:+ "Hue: " +:+ str hue +:+ degree)))
      | _, _ =>
          modify (set_hue_preview_label
            (Some ("Hue Preview" +:+ nl +:+ "No image selected")))
      end
  end.

(** [HueTab.set_current_image]. *)
Definition HueTab_set_current_image (image_data : loc) : Run unit :=
  modify (set_hue_current_image (Some image_data));;
  update_preview.

(** [HueTab.on_hue_applied]. *)
Definition on_hue_applied (image_data : loc) : Run unit :=
  s ← get;
  if decide (Some image_data = hue_current_image s) then update_preview
  else mret tt.

(** [QSlider.setValue] on the hue slider: the value is brought into the
    slider's range; when it differs from the slider's value it is stored and
    [valueChanged] is delivered; otherwise nothing happens. *)
Definition QSlider_setValue (valueChanged : Z → Run unit) (value : Z) : Run unit :=
  s ← get;
  let bounded := Z.max hue_min (Z.min hue_max value) in
  match hue_slider s with
  | Some current =>
      if decide (current = bounded) then mret tt
      else modify (set_hue_slider (Some bounded));; valueChanged bounded
  | None => mret tt
  end.

(** [QLineEdit.setText] on the hue text field: when the text differs from
    the field's text it is stored and [textChanged] is delivered; otherwise
    nothing happens. *)
Definition QLineEdit_setText (textChanged : string → Run unit) (text : string)
  : Run unit :=
  s ← get;
  match hue_value s with
  | Some current =>
      if decide (current = text) then mret tt
      else modify (set_hue_value (Some text));; textChanged text
  | None => mret tt
  end.

(** The body of [HueTab.update_hue] over [self.hue_value.setText]. *)
Definition update_hue_body (setText : string → Run unit) (value : Z) : Run unit :=
  s ← get;
  match hue_value s with
  | Some _ => setText (str value)
  | None => mret tt
  end;;
  s ← get;
  match hue_current_image s with
  | Some r =>
      response ← adjust_hue r value;
      if success response then update_preview else mret tt
  | None =>
      match hue_preview_label s with
      | Some _ =>
          modify (set_hue_preview_label
            (Some ("Hue Preview" +:+ nl +:+ "No image selected" +:+ nl
                   +:+ "Hue: " +:+ str value +:+ degree)))
      | None => mret tt
      end
  end.

(** The body of [SectionWidget._update_slider_value_field] over
    [value_field.setText]; the value field of the hue slider is
    [self.hue_value]. *)
Definition update_slider_value_field_body (setText : string → Run unit)
    (value : Z) : Run unit :=
  s ← get;
  match hue_value s with
  | Some _ => setText (str value)
  | None => mret tt
  end.

(** The body of [HueTab.update_slider_from_text] over
    [self.hue_slider.setValue].  [int] is Python's [int(text)], [None]
    standing for [ValueError]. *)
Definition update_slider_from_text_body (int : string → option Z)
    (setValue : Z → Run unit) (text : string) : Run unit :=
  s ← get;
  match int text with
  | None => mret tt
  | Some value =>
      match hue_slider s with
      | Some _ =>
          if decide (-180 ≤ value ≤ 180) then setValue value
          else mret tt
      | None => mret tt
      end
  end.

(** The slots of the slider's [valueChanged], given the delivery of the
    [valueChanged] signals emitted inside them. *)
Definition valueChanged_body (int : string → option Z)
    (valueChanged : Z → Run unit) (value : Z) : Run unit :=
  let setValue := QSlider_setValue valueChanged in
  let setText := QLineEdit_setText (update_slider_from_text_body int setValue) in
  update_hue_body setText value;;
  update_slider_value_field_body setText value.

(** The delivery of [valueChanged]; [depth] is the number of deliveries
    nested in each other that are followed, a delivery beyond it is dropped.
    With Python's [int], which reads back what [str] prints, a delivery
    nested in another finds the slider and the text field already set and
    emits nothing: one level is all the program uses (lemma
    [valueChanged_body_settled]). *)
Fixpoint valueChanged (int : string → option Z) (depth : nat) (value : Z)
  : Run unit :=
  match depth with
  | O => mret tt
  | S depth => valueChanged_body int (valueChanged int depth) value
  end.

(** [self.hue_slider.setValue(value)]. *)
Definition hue_slider_setValue (int : string → option Z) (depth : nat)
  : Z → Run unit :=
  QSlider_setValue (valueChanged int depth).

(** [HueTab.update_slider_from_text], the slot of the text field's
    [textChanged]. *)
Definition update_slider_from_text (int : string → option Z) (depth : nat)
  : string → Run unit :=
  update_slider_from_text_body int (hue_slider_setValue int depth).

(** [self.hue_value.setText(text)]. *)
Definition hue_value_setText (int : string → option Z) (depth : nat)
  : string → Run unit :=
  QLineEdit_setText (update_slider_from_text int depth).

(** [HueTab.update_hue], the first slot of the hue slider's
    [valueChanged]. *)
Definition update_hue (int : string → option Z) (depth : nat) : Z → Run unit :=
  update_hue_body (hue_value_setText int depth).

(** [HueTab.reset_hue]. *)
Definition reset_hue (int : string → option Z) (depth : nat) : Run unit :=
  s ← get;
  match hue_slider s with
  | Some _ => hue_slider_setValue int depth 0
  | None => mret tt
  end.

(** The nested deliveries followed when a slot is called: more than the
    one the program uses. *)
Definition signal_depth : nat := 3.

(** Python's [int(text)] on ASCII text: white space around the literal is
    dropped; the literal is an optional sign followed by decimal digits,
    with single underscores allowed between digits.  [None] stands for
    [ValueError].  Text with characters outside ASCII is refused. *)
Definition digit_value (c : Ascii.ascii) : option Z :=
  let n := Z.of_N (Ascii.N_of_ascii c) in
  if decide (48 ≤ n ≤ 57) then Some (n - 48) else None.

(** The characters [str.isspace] accepts in ASCII: tab to carriage return,
    the four separators and the space. *)
Definition is_space (c : Ascii.ascii) : bool :=
  let n := Z.of_N (Ascii.N_of_ascii c) in
  bool_decide (9 ≤ n ≤ 13 ∨ 28 ≤ n ≤ 32).

Fixpoint lstrip (s : string) : string :=
  match s with
  | EmptyString => EmptyString
  | String c rest => if is_space c then lstrip rest else s
  end.

Fixpoint rstrip (s : string) : string :=
  match s with
  | EmptyString => EmptyString
  | String c rest =>
      match rstrip rest with
      | EmptyString => if is_space c then EmptyString else String c EmptyString
      | stripped => String c stripped
      end
  end.

(** The value of the digits after a digit, most significant first; an
    underscore must be followed by a digit. *)
Fixpoint digits_value (acc : Z) (s : string) : option Z :=
  match s with
  | EmptyString => Some acc
  | String c rest =>
      match digit_value c with
      | Some d => digits_value (10 * acc + d) rest
      | None =>
          if decide (String c "" = "_") then
            match rest with
            | String c' _ =>
                if digit_value c' is Some _ then digits_value acc rest else None
            | EmptyString => None
            end
          else None
      end
  end.

(** The value of an unsigned literal: it starts with a digit. *)
Definition literal_value (s : string) : option Z :=
  match s with
  | String c _ => if digit_value c is Some _ then digits_value 0 s else None
  | EmptyString => None
  end.

Definition int_decimal (text : string) : option Z :=
  match rstrip (lstrip text) with
  | EmptyString => None
  | String c rest =>
      if decide (String c "" = "-") then Z.opp <$> literal_value rest
      else if decide (String c "" = "+") then literal_value rest
      else literal_value (String c rest)
  end.

(** ** [class MainWindow] *)

(** [MainWindow.set_current_image_for_editing]. *)
Definition set_current_image_for_editing (image_data : loc) : Run unit :=
  EditorTab_set_current_image image_data;;
  HueTab_set_current_image image_data.

(** [MainWindow.on_tab_changed]. *)
Definition on_tab_changed (index : Z) : Run unit :=
  s ← get;
  match get_selected_images s with
  | [] => mret tt
  | current_image :: _ =>
      if decide (index = 1) then EditorTab_set_current_image current_image
      else if decide (index = 2) then HueTab_set_current_image current_image
      else mret tt
  end.

(** [MainWindow.choose_directory]; [directory] is what the chooser dialog
    returns, the empty string when it is cancelled. *)
Definition choose_directory (directory : string) : Run unit :=
  if decide (directory = "") then mret tt
  else
    modify (set_current_directory (Some directory));;
    modify (set_dir_path_label directory);;
    set_setting "last_directory" (PStr directory);;
    load_directory directory.

(** [MainWindow.load_headshots]; [None] and the empty string are falsy. *)
Definition load_headshots : Run unit :=
  s ← get;
  match get_selected_images s with
  | current_image :: _ =>
      print "Loading {len(selected_images)} selected headshots"
        [AInt (Z.of_nat (length (get_selected_images s)))];;
      set_current_image_for_editing current_image
  | [] => print "No headshots selected" []
  end;;
  s ← get;
  match current_directory s with
  | Some d => if decide (d = "") then
                if decide (dir_path_label s = "No directory selected") then mret tt
                else modify (set_current_directory (Some (dir_path_label s)));;
                     load_directory (dir_path_label s)
              else mret tt
  | None =>
      if decide (dir_path_label s = "No directory selected") then mret tt
      else modify (set_current_directory (Some (dir_path_label s)));;
           load_directory (dir_path_label s)
  end.

(** [MainWindow.closeEvent]. *)
Definition closeEvent : Run unit := shutdown.

(** The state when [MainWindow.__init__] has built the widgets, before
    [APIService.initialize]. *)
Definition constructed : State :=
  {| heap := [];
     presets := ∅;
     settings := SettingsManager_init;
     gallery_items := replicate 12 false;
     headshot_data := [];
     editor_current_image := None;
     editor_edit_settings := ∅;
     editor_preview_label :=
       Some ("Image Preview" +:+ nl +:+ "Select an image from the gallery");
     hue_current_image := None;
     hue_slider := Some 0;
     hue_value := Some "0";
     hue_preview_label :=
       Some ("Hue Preview" +:+ nl +:+ "Select an image from the gallery");
     current_directory := None;
     dir_path_label := "No directory selected" |}.

(** The state when [MainWindow.__init__] returns. *)
Definition initial_state : State := state_of (initialize constructed).

(** * Definitions for the statements *)

(** ** Selection *)

(** The selection part of a state: the records and the gallery items. *)
Definition with_selection (h : list HeadshotData) (g : list bool) (s : State) : State :=
  set_gallery_items (λ _, g) (set_heap (λ _, h) s).

(** What the loop of the single-selection branch computes. *)
Definition clear_heap (refs : list loc) (h : list HeadshotData) : list HeadshotData :=
  foldl (λ h r, alter (with_is_selected false) r h) h refs.

(** What it does to the gallery items at positions [i], ..., [i + n - 1];
    a position beyond the items is skipped, as the loop's test does. *)
Definition clear_items (i n : nat) (g : list bool) : list bool :=
  foldl (λ g j, <[j := false]> g) g (seq i n).

(** The gallery's collection holds distinct, allocated records: this is what
    [FileManager.load_images] builds, one new object for each path. *)
Definition wf (s : State) : Prop :=
  NoDup (headshot_data s) ∧
  ∀ r, r ∈ headshot_data s → (r < length (heap s))%nat.

(** A loaded application: the window as constructed, after one directory
    load. *)
Definition loaded : State := state_of (load_directory "/photos" initial_state).

(** ** Presets *)

(** The entry of [mock_presets] for "Studio Light". *)
Definition studio_light : Settings :=
  <["brightness" := PInt 20]> (<["contrast" := PInt 10]> (<["warmth" := PInt 8]> ∅)).

(** The operations on the preset catalog, and a sequence of them. *)
Inductive PresetOp : Type :=
| OpLoadPresets
| OpSavePreset (preset_name : string) (settings : Settings).

(** One operation, run. *)
Definition preset_op (o : PresetOp) : Run unit :=
  match o with
  | OpLoadPresets => load_presets;; mret tt
  | OpSavePreset preset_name settings => save_preset preset_name settings;; mret tt
  end.

(** The state after a sequence of operations. *)
Fixpoint preset_ops (ops : list PresetOp) (s : State) : State :=
  match ops with
  | [] => s
  | o :: ops' => preset_ops ops' (state_of (preset_op o s))
  end.

(** The names an operation stores in the catalog. *)
Definition stored_names (o : PresetOp) : list string :=
  match o with
  | OpLoadPresets => ["Portrait Enhance"; "Studio Light"; "Natural Look"]
  | OpSavePreset preset_name _ => [preset_name]
  end.

(** ** Hue and loading *)

(** A loaded application in which the first record is selected and the hue
    tab has been opened on it. *)
Definition hue_ready : State :=
  state_of (on_tab_changed 2 (state_of (select_image 0 Qt_NoModifier loaded))).

(** The state after [self.hue_value.setText(text)] when the slot of
    [textChanged] finds nothing to do. *)
Definition hue_text_set (text : string) (s : State) : State :=
  match hue_value s with
  | Some _ => set_hue_value (Some text) s
  | None => s
  end.

(** [update_hue] when the slot of [textChanged] finds nothing to do: the
    text is set, the adjustment is sent and the preview updated. *)
Definition update_hue_quiet (value : Z) : Run unit :=
  update_hue_body (λ text, modify (hue_text_set text)) value.

(** The record [load_images] builds for a path. *)
Definition loaded_record (path : string) : HeadshotData :=
  with_metadata mock_metadata (HeadshotData_init path).

(** ** User actions *)

(** The slots the user's actions reach, with the values Qt passes to them.
    A slider of the editor calls its slot [on_slider_changed] with the
    slider's new value: the slot is an action of its own, with any
    argument.  On the hue tab the action is the change of the widget
    itself, whose slots Qt then calls: [HueChanged value] moves the hue
    slider to [value], [HueTextChanged text] edits the hue text field to
    [text]. *)
Inductive Action : Type :=
| ChooseDirectory (directory : string)
| LoadHeadshots
| SelectImage (index : Z) (modifiers : Z)
| ApplyPresetToSelected (preset_name : string)
| SubmitGallerySettings
| ResetGallerySettings
| TabChanged (index : Z)
| SliderChanged (parameter_name : string) (value : Z)
| ApplySimilarSettings
| ResetEditorSettings
| SaveCurrentEdits
| HueChanged (value : Z)
| HueTextChanged (text : string)
| ResetHue
| SavePreset (preset_name : string) (settings : Settings)
| CloseEvent.

(** The slot an action runs; [int] is Python's [int(text)]. *)
Definition perform (int : string → option Z) (a : Action) : Run unit :=
  match a with
  | ChooseDirectory directory => choose_directory directory
  | LoadHeadshots => load_headshots
  | SelectImage index modifiers => select_image index modifiers
  | ApplyPresetToSelected preset_name => apply_preset_to_selected preset_name
  | SubmitGallerySettings => submit_gallery_settings
  | ResetGallerySettings => reset_gallery_settings
  | TabChanged index => on_tab_changed index
  | SliderChanged parameter_name value => on_slider_changed parameter_name value
  | ApplySimilarSettings => apply_similar_settings
  | ResetEditorSettings => reset_editor_settings
  | SaveCurrentEdits => save_current_edits
  | HueChanged value => hue_slider_setValue int signal_depth value
  | HueTextChanged text => hue_value_setText int signal_depth text
  | ResetHue => reset_hue int signal_depth
  | SavePreset preset_name settings => save_preset preset_name settings;; mret tt
  | CloseEvent => closeEvent
  end.

(** The state after a sequence of actions. *)
Definition run_actions (int : string → option Z) (actions : list Action)
    (s : State) : State :=
  foldl (λ s a, state_of (perform int a s)) s actions.

(** ** The adjustment invariant *)

(** The parameters the program declares, with their ranges: the sliders of
    the editor. *)
Definition parameter_range (name : string) : option (Z * Z) :=
  if decide (name ∈ editor_parameters)
  then Some (editor_slider_min, editor_slider_max) else None.

(** A key is recognized and its value is an integer of the key's range. *)
Definition value_ok (name : string) (v : PyVal) : Prop :=
  match parameter_range name, v with
  | Some (lo, hi), PInt z => lo ≤ z ≤ hi
  | _, _ => False
  end.

#[global] Instance value_ok_dec name v : Decision (value_ok name v).
Proof.
  unfold value_ok. destruct (parameter_range name) as [[lo hi]|], v; apply _.
Defined.

(** An adjustment mapping has recognized keys and values in range. *)
Definition adjustments_ok (e : Settings) : Prop := map_Forall value_ok e.

(** Every record's adjustment mapping is well-formed. *)
Definition records_ok (s : State) : Prop :=
  Forall (λ d, adjustments_ok (edit_settings d)) (heap s).

(** An action as the widgets deliver it: a slider change carries the name
    of one of the editor's sliders and a value of the slider's range. *)
Definition from_widgets (a : Action) : Prop :=
  match a with
  | SliderChanged parameter_name value =>
      parameter_name ∈ editor_parameters ∧
      editor_slider_min ≤ value ≤ editor_slider_max
  | _ => True
  end.

(** A computation preserves a predicate on states. *)
Definition inv {A} (I : State → Prop) (m : Run A) : Prop :=
  ∀ s, I s → I (state_of (m s)).

(** A predicate that does not look at the widgets of the hue tab. *)
Definition hue_frame (I : State → Prop) : Prop :=
  (∀ v, inv I (modify (set_hue_slider v))) ∧
  (∀ t, inv I (modify (set_hue_value t))) ∧
  (∀ l, inv I (modify (set_hue_preview_label l))).

(** The invariant of the event loop: the records' adjustment mappings and
    the editor's pending settings, from which [save_current_edits] copies,
    are well-formed. *)
Definition Inv (s : State) : Prop :=
  records_ok s ∧ adjustments_ok (editor_edit_settings s).

#[global] Instance from_widgets_dec a : Decision (from_widgets a).
Proof. destruct a; cbn; apply _. Defined.

(** A session in which the user loads a directory, selects the first
    record, opens the editor, moves a slider and saves. *)
Definition editing_session (value : Z) : list Action :=
  [ ChooseDirectory "/photos"; SelectImage 0 Qt_NoModifier; TabChanged 1;
    SliderChanged "Brightness" value; SaveCurrentEdits ].

(** * Further parts of the program *)

(** ** [class MainWindow]: tab navigation

    The tab widget is read through [currentIndex()] and [count()]; each
    method is the index it passes to [setCurrentIndex]. *)

(** [MainWindow.previous_tab]. *)
Definition previous_tab (current count : Z) : Z :=
  if decide (current > 0) then current - 1 else count - 1.

(** [MainWindow.next_tab]. *)
Definition next_tab (current count : Z) : Z :=
  if decide (current < count - 1) then current + 1 else 0.

(** ** [HeadshotGalleryTab._build_right_column]: the gallery grid *)

(** [UIConstants.GALLERY_COLUMNS]. *)
Definition GALLERY_COLUMNS : nat := 4.

(** The cell [gallery_layout.addWidget] gives item [i]:
    [(i // GALLERY_COLUMNS, i % GALLERY_COLUMNS)]. *)
Definition gallery_cell (i : nat) : nat * nat :=
  ((i / GALLERY_COLUMNS)%nat, (i mod GALLERY_COLUMNS)%nat).

(** ** Views of a trace *)

(** The backend requests of a trace, in order. *)
Definition api_requests (t : list Event) : list ApiRequest :=
  omap (λ e, match e with Api request => Some request | _ => None end) t.

(** The images [process_single_image] was entered for, by their paths, in
    order. *)
Definition processed_paths (t : list Event) : list string :=
  omap (λ e, match e with
             | Print "Processing: {image_data.file_path} with settings {settings}"
                 (AStr path :: _) => Some path
             | _ => None
             end) t.

(** ** State predicates *)

(** The gallery items show the records' flags: at every position that has
    both a record and an item, the item's [selected] is the record's
    [is_selected]. *)
Definition in_sync (s : State) : Prop :=
  ∀ i r, headshot_data s !! i = Some r →
         (i < length (gallery_items s))%nat →
         gallery_items s !! i = Some (is_selected_of s r).

(** The directory label shows the current directory, if there is one. *)
Definition directory_shown (s : State) : Prop :=
  (current_directory s = None ∧ dir_path_label s = "No directory selected") ∨
  (∃ d, d ≠ "" ∧ current_directory s = Some d ∧ dir_path_label s = d).

(** Every record of [s0] is still there, with its path and metadata. *)
Definition keeps_records (s0 s : State) : Prop :=
  ∀ r d0, heap s0 !! r = Some d0 →
          ∃ d, heap s !! r = Some d ∧ file_path d = file_path d0
               ∧ metadata d = metadata d0.

(** Only records that have a gallery item are selected. *)
Definition selected_have_items (s : State) : Prop :=
  ∀ i r, headshot_data s !! i = Some r → is_selected_of s r = true →
         (i < length (gallery_items s))%nat.

(** What [load_headshots] must leave alone: the directory label shows the
    current directory, and the collection and the records are given. *)
Definition directory_kept (hd : list loc) (h : list HeadshotData) (s : State) : Prop :=
  directory_shown s ∧ headshot_data s = hd ∧ heap s = h.

(** The selection is within the gallery's [n] items. *)
Definition selection_shown (n : nat) (s : State) : Prop :=
  wf s ∧ selected_have_items s ∧ length (gallery_items s) = n.

(** * Reasoning about [Run] computations *)

Lemma run_bind {A B} (m : Run A) (k : A → Run B) s a s1 t1 b s2 t2 :
  m s = (a, s1, t1) → k a s1 = (b, s2, t2) →
  (m ≫= k) s = (b, s2, t1 ++ t2).
Proof.
  intros Hm Hk. unfold mbind, Run_bind, bind. by rewrite Hm, Hk.
Qed.

Lemma run_bind_unfold {A B} (m : Run A) (k : A → Run B) s :
  (m ≫= k) s =
    let '(a, s1, t1) := m s in
    let '(b, s2, t2) := k a s1 in (b, s2, t1 ++ t2).
Proof. reflexivity. Qed.

Lemma state_of_bind {A B} (m : Run A) (k : A → Run B) s :
  state_of ((m ≫= k) s) = state_of (k (result (m s)) (state_of (m s))).
Proof.
  unfold mbind, Run_bind, bind, state_of, result.
  destruct (m s) as [[a s1] t1]; simpl. by destruct (k a s1) as [[b s2] t2].
Qed.

Lemma result_bind {A B} (m : Run A) (k : A → Run B) s :
  result ((m ≫= k) s) = result (k (result (m s)) (state_of (m s))).
Proof.
  unfold mbind, Run_bind, bind, state_of, result.
  destruct (m s) as [[a s1] t1]; simpl. by destruct (k a s1) as [[b s2] t2].
Qed.

Lemma trace_bind {A B} (m : Run A) (k : A → Run B) s :
  trace ((m ≫= k) s) = trace (m s) ++ trace (k (result (m s)) (state_of (m s))).
Proof.
  unfold mbind, Run_bind, bind, state_of, result, trace.
  destruct (m s) as [[a s1] t1]; simpl. by destruct (k a s1) as [[b s2] t2].
Qed.

Lemma with_selection_id s : with_selection (heap s) (gallery_items s) s = s.
Proof. by destruct s. Qed.

Lemma with_selection_twice h g h' g' s :
  with_selection h' g' (with_selection h g s) = with_selection h' g' s.
Proof. done. Qed.

Lemma with_is_selected_twice b b' d :
  with_is_selected b (with_is_selected b' d) = with_is_selected b d.
Proof. done. Qed.

Lemma clear_heap_lookup refs : ∀ h r,
  clear_heap refs h !! r =
    if decide (r ∈ refs) then with_is_selected false <$> h !! r else h !! r.
Proof.
  induction refs as [|a refs IH]; intros h r; unfold clear_heap in *; cbn [foldl].
  - case_decide as Hin; [set_solver | done].
  - rewrite IH.
    destruct (decide (r = a)) as [->|Hne].
    + rewrite list_lookup_alter_eq.
      rewrite (decide_True (P := a ∈ a :: refs)) by set_solver.
      case_decide; [|done].
      destruct (h !! a); simpl; [|done]. by rewrite with_is_selected_twice.
    + rewrite list_lookup_alter_ne by done.
      repeat case_decide; try done; set_solver.
Qed.

Lemma clear_heap_length refs : ∀ h, length (clear_heap refs h) = length h.
Proof.
  induction refs as [|a refs IH]; intros h; simpl; [done|].
  unfold clear_heap in *. by rewrite IH, length_alter.
Qed.

Lemma clear_items_length n : ∀ i g, length (clear_items i n g) = length g.
Proof.
  induction n as [|n IH]; intros i g; simpl; [done|].
  unfold clear_items in *. simpl. by rewrite IH, length_insert.
Qed.

Lemma clear_items_lookup n : ∀ i g j,
  clear_items i n g !! j =
    if decide (i ≤ j < i + n ∧ j < length g)%nat then Some false else g !! j.
Proof.
  induction n as [|n IH]; intros i g j.
  - simpl. case_decide; [lia | done].
  - unfold clear_items in *. simpl. rewrite IH, length_insert.
    destruct (decide (j = i)) as [->|Hne].
    + destruct (decide (i < length g)%nat) as [Hlt|Hge].
      * rewrite list_lookup_insert_eq by done.
        rewrite (decide_True (P := (i ≤ i < i + S n ∧ i < length g)%nat)) by lia.
        by case_decide.
      * rewrite list_insert_ge by lia.
        rewrite !decide_False by lia. done.
    + rewrite list_lookup_insert_ne by done.
      case_decide; case_decide; try done; lia.
Qed.

Lemma clear_one_run i r s :
  clear_one i r s
  = (tt, with_selection (alter (with_is_selected false) r (heap s))
           (<[i := false]> (gallery_items s)) s, []).
Proof.
  unfold clear_one, mbind, Run_bind, bind, write_is_selected, get, set_selected,
    modify, mret, Run_ret, ret. cbn.
  case_decide as Hlt; cbn; [done|].
  unfold with_selection, set_gallery_items, set_heap; cbn.
  by rewrite list_insert_ge by lia.
Qed.

Lemma clear_selection_run_at refs : ∀ i s,
  for_each i refs clear_one s
  = (tt, with_selection (clear_heap refs (heap s))
           (clear_items i (length refs) (gallery_items s)) s, []).
Proof.
  induction refs as [|r refs IH]; intros i s.
  - simpl. by rewrite with_selection_id.
  - cbn [for_each].
    rewrite (run_bind _ _ _ _ _ _ _ _ _ (clear_one_run i r s) (IH (S i) _)).
    reflexivity.
Qed.

Lemma clear_selection_run refs s :
  clear_selection refs s
  = (tt, with_selection (clear_heap refs (heap s))
           (clear_items 0 (length refs) (gallery_items s)) s, []).
Proof. apply clear_selection_run_at. Qed.

(** ** Filtering a duplicate-free list *)

Section filter_positions.
Context {A : Type} (P : A → Prop) `{!∀ x, Decision (P x)}.

Lemma filter_none (l : list A) :
  (∀ x, x ∈ l → ¬ P x) → filter P l = [].
Proof.
  induction l as [|y l IH]; intros Hl; [done|].
  rewrite filter_cons_False by (apply Hl; set_solver).
  apply IH. intros x Hx. apply Hl. set_solver.
Qed.

Lemma filter_one (l : list A) (i : nat) (a : A) :
  NoDup l → l !! i = Some a →
  (∀ x, x ∈ l → (P x ↔ x = a)) →
  filter P l = [a].
Proof.
  intros Hnd Hi HP.
  rewrite <- (take_drop_middle l i a Hi) in Hnd, HP |- *.
  apply NoDup_app in Hnd as (_ & Hdis & Hnd).
  apply NoDup_cons in Hnd as (Hnot & _).
  rewrite filter_app, filter_cons_True by (apply HP; set_solver).
  rewrite !filter_none; [done| |].
  - intros x Hx HPx. apply HP in HPx; [|set_solver]. by subst.
  - intros x Hx HPx. apply HP in HPx; [|set_solver]. subst.
    apply (Hdis a Hx). set_solver.
Qed.

Lemma filter_two (l : list A) (i j : nat) (a b : A) :
  NoDup l → l !! i = Some a → l !! j = Some b → (i < j)%nat →
  (∀ x, x ∈ l → (P x ↔ x = a ∨ x = b)) →
  filter P l = [a; b].
Proof.
  intros Hnd Hi Hj Hlt HP.
  assert (a ≠ b) as Hab.
  { intros ->. pose proof (NoDup_lookup l i j b Hnd Hi Hj). lia. }
  assert (drop (S i) l !! (j - S i)%nat = Some b) as Hj'.
  { rewrite lookup_drop. rewrite <- Hj. f_equal. lia. }
  rewrite <- (take_drop_middle l i a Hi) in Hnd, HP |- *.
  apply NoDup_app in Hnd as (_ & Hdis & Hnd).
  apply NoDup_cons in Hnd as (Hnot & Hnd').
  assert (b ∈ drop (S i) l) as Hb by (by eapply list_elem_of_lookup_2).
  rewrite filter_app, filter_cons_True by (apply HP; set_solver).
  rewrite (filter_none (take i l)).
  - simpl. f_equal.
    apply (filter_one _ _ _ Hnd' Hj').
    intros x Hx. rewrite HP by set_solver.
    split; [intros [->| ->]; done | by right].
  - intros x Hx HPx. apply HP in HPx as [->| ->]; [| |set_solver].
    + apply (Hdis a Hx). set_solver.
    + apply (Hdis b Hx). set_solver.
Qed.
End filter_positions.

(** ** Runs of [select_image] *)

Lemma select_image_out_of_bounds_run index modifiers s :
  out_of_bounds index s →
  select_image index modifiers s
  = (tt, s, [Log WARNING "Image selection index out of bounds: {index}" [AInt index]]).
Proof.
  intros Hoob. unfold select_image.
  rewrite run_bind_unfold. unfold get at 1.
  rewrite decide_True by done. reflexivity.
Qed.

Lemma select_image_single_run index modifiers s r :
  ¬ out_of_bounds index s →
  headshot_data s !! Z.to_nat index = Some r →
  modifiers ≠ Qt_ControlModifier →
  select_image index modifiers s
  = (tt, with_selection
           (alter (with_is_selected true) r (clear_heap (headshot_data s) (heap s)))
           (<[Z.to_nat index := true]>
              (clear_items 0 (length (headshot_data s)) (gallery_items s)))
           s, []).
Proof.
  intros Hin Hr Hm. unfold select_image.
  rewrite run_bind_unfold. unfold get at 1.
  rewrite decide_False by done. rewrite Hr. rewrite decide_False by done.
  rewrite run_bind_unfold, clear_selection_run. reflexivity.
Qed.

Lemma select_image_multi_run index s r :
  ¬ out_of_bounds index s →
  headshot_data s !! Z.to_nat index = Some r →
  select_image index Qt_ControlModifier s
  = (tt, with_selection
           (alter (with_is_selected (negb (is_selected_of s r))) r (heap s))
           (<[Z.to_nat index := negb (is_selected_of s r)]> (gallery_items s))
           s, []).
Proof.
  intros Hin Hr. unfold select_image.
  rewrite run_bind_unfold. unfold get at 1.
  rewrite decide_False by done. rewrite Hr. rewrite decide_True by done.
  reflexivity.
Qed.

(** ** Well-formed collections *)

Lemma is_selected_of_with_selection h g s r :
  is_selected_of (with_selection h g s) r = from_option is_selected false (h !! r).
Proof. done. Qed.

Lemma get_selected_images_with_selection h g s :
  get_selected_images (with_selection h g s)
  = filter (λ r, from_option is_selected false (h !! r) = true) (headshot_data s).
Proof. done. Qed.

Lemma wf_lookup s i r :
  wf s → headshot_data s !! i = Some r → is_Some (heap s !! r).
Proof.
  intros [_ Hval] Hi. apply lookup_lt_is_Some, Hval.
  by eapply list_elem_of_lookup_2.
Qed.

(** The records after a single selection of [r]. *)
Lemma single_heap_lookup (refs : list loc) (h : list HeadshotData) (r r' : loc) :
  alter (with_is_selected true) r (clear_heap refs h) !! r'
  = if decide (r' = r) then with_is_selected true <$> h !! r'
    else if decide (r' ∈ refs) then with_is_selected false <$> h !! r'
         else h !! r'.
Proof.
  case_decide as Heq.
  - subst. rewrite list_lookup_alter_eq, clear_heap_lookup.
    case_decide; destruct (h !! r); done.
  - by rewrite list_lookup_alter_ne, clear_heap_lookup by done.
Qed.

(** The gallery items after a single selection of position [i]. *)
Lemma single_items_lookup (g : list bool) (n i j : nat) :
  (i < length g)%nat → (i < n)%nat →
  <[i := true]> (clear_items 0 n g) !! j
  = if decide (j = i) then Some true
    else if decide (j < n ∧ j < length g)%nat then Some false else g !! j.
Proof.
  intros Hi Hn. case_decide as Heq.
  - subst. by rewrite list_lookup_insert_eq by (by rewrite clear_items_length).
  - rewrite list_lookup_insert_ne, clear_items_lookup by done.
    repeat case_decide; try done; lia.
Qed.

Lemma in_bounds_not_out index s r :
  0 ≤ index < Z.of_nat (length (gallery_items s)) →
  headshot_data s !! Z.to_nat index = Some r →
  ¬ out_of_bounds index s.
Proof.
  intros Hg Hr. apply lookup_lt_Some in Hr. unfold out_of_bounds. lia.
Qed.

Lemma single_heap_twice (refs : list loc) (h : list HeadshotData) (r : loc) :
  let h1 := alter (with_is_selected true) r (clear_heap refs h) in
  alter (with_is_selected true) r (clear_heap refs h1) = h1.
Proof.
  intros h1. apply list_eq. intros r'.
  rewrite single_heap_lookup. subst h1. rewrite single_heap_lookup.
  repeat case_decide; destruct (h !! r'); done.
Qed.

Lemma single_items_twice (g : list bool) (n i : nat) :
  (i < length g)%nat → (i < n)%nat →
  let g1 := <[i := true]> (clear_items 0 n g) in
  <[i := true]> (clear_items 0 n g1) = g1.
Proof.
  intros Hi Hn g1. apply list_eq. intros j.
  assert (length g1 = length g) as Hlen
    by (subst g1; by rewrite length_insert, clear_items_length).
  rewrite single_items_lookup by lia. subst g1.
  rewrite single_items_lookup by lia. rewrite length_insert, clear_items_length.
  repeat case_decide; done.
Qed.

Lemma loaded_wf : wf loaded.
Proof.
  split; [vm_compute; exact (NoDup_seq 0 24) |].
  intros r Hr. vm_compute in Hr. apply list_elem_of_In in Hr.
  vm_compute. cbn in Hr. repeat (destruct Hr as [<-|Hr]; [lia|]). done.
Qed.

(** * Selection *)

(** C1 (amended).  In a well-formed collection, for every index in the
    bounds of both the collection and the gallery's item list, a selection
    without the Control modifier leaves every other record of the collection
    unselected, selects the record at the index, keeps the collection, makes
    the current selection exactly that record, and is idempotent: repeating
    it returns the same state and logs nothing. *)
Theorem select_image_single_selects (index modifiers : Z) (s : State) (r : loc) :
  wf s →
  modifiers ≠ Qt_ControlModifier →
  0 ≤ index < Z.of_nat (length (gallery_items s)) →
  headshot_data s !! Z.to_nat index = Some r →
  let s' := state_of (select_image index modifiers s) in
  (∀ r', r' ∈ headshot_data s → r' ≠ r → is_selected_of s' r' = false) ∧
  is_selected_of s' r = true ∧
  gallery_items s' !! Z.to_nat index = Some true ∧
  headshot_data s' = headshot_data s ∧
  get_selected_images s' = [r] ∧
  select_image index modifiers s' = (tt, s', []).
Proof.
  intros Hwf Hm Hg Hr s'.
  pose proof (in_bounds_not_out _ _ _ Hg Hr) as Hin.
  pose proof (wf_lookup _ _ _ Hwf Hr) as [d Hd].
  pose proof (lookup_lt_Some _ _ _ Hr) as Hlen.
  subst s'. rewrite (select_image_single_run _ _ _ _ Hin Hr Hm).
  unfold state_of; cbn [fst snd].
  assert (∀ r' : loc,
            (from_option is_selected false
              (alter (with_is_selected true) r
                 (clear_heap (headshot_data s) (heap s)) !! r') = true)
            ↔ (r' = r ∨ ((r' ∉ headshot_data s) ∧ is_selected_of s r' = true)))
    as Hsel.
  { intros r'. rewrite single_heap_lookup. unfold is_selected_of.
    destruct (decide (r' = r)) as [->|Hne].
    - rewrite Hd. cbn. naive_solver.
    - case_decide; destruct (heap s !! r'); cbn; naive_solver. }
  split_and!.
  - intros r' Hr' Hne. rewrite is_selected_of_with_selection.
    apply not_true_is_false. rewrite Hsel. naive_solver.
  - rewrite is_selected_of_with_selection. apply Hsel. by left.
  - cbn. apply list_lookup_insert_eq. rewrite clear_items_length. lia.
  - done.
  - rewrite get_selected_images_with_selection.
    apply (filter_one _ _ (Z.to_nat index)); [apply Hwf | done |].
    intros x Hx. rewrite Hsel. naive_solver.
  - set (s1 := with_selection _ _ s).
    assert (¬ out_of_bounds index s1) as Hin1.
    { unfold out_of_bounds, s1. cbn.
      rewrite length_insert, clear_items_length. exact Hin. }
    rewrite (select_image_single_run index modifiers s1 r Hin1 Hr Hm).
    unfold s1 at 1 2 3 4. cbn [heap gallery_items headshot_data with_selection
      set_gallery_items set_heap].
    rewrite single_heap_twice, single_items_twice by lia.
    reflexivity.
Qed.

(** C1, witness: the first record of a freshly loaded directory. *)
Lemma select_image_single_selects_witness :
  let s' := state_of (select_image 0 Qt_NoModifier loaded) in
  (∀ r', r' ∈ headshot_data loaded → r' ≠ 0%nat → is_selected_of s' r' = false) ∧
  is_selected_of s' 0%nat = true ∧
  gallery_items s' !! Z.to_nat 0 = Some true ∧
  headshot_data s' = headshot_data loaded ∧
  get_selected_images s' = [0%nat] ∧
  select_image 0 Qt_NoModifier s' = (tt, s', []).
Proof.
  apply (select_image_single_selects 0 Qt_NoModifier loaded 0%nat).
  - exact loaded_wf.
  - vm_compute. discriminate.
  - vm_compute. split; [discriminate | reflexivity].
  - reflexivity.
Defined.

(** C1, counterexample: the claim for every index in the collection's bounds
    fails.  A loaded directory has 24 records and the gallery 12 items;
    index 12 is in the collection's bounds, and selecting it changes
    nothing. *)
Lemma select_image_single_beyond_gallery :
  ¬ (∀ (s : State) (index : Z) (r : loc),
       wf s →
       0 ≤ index < Z.of_nat (length (headshot_data s)) →
       headshot_data s !! Z.to_nat index = Some r →
       get_selected_images (state_of (select_image index Qt_NoModifier s)) = [r]).
Proof.
  intros H.
  assert (0 ≤ 12 < Z.of_nat (length (headshot_data loaded))) as Hb
    by (vm_compute; split; [discriminate | reflexivity]).
  pose proof (H loaded 12 12%nat loaded_wf Hb eq_refl) as Hc.
  vm_compute in Hc. discriminate Hc.
Qed.

(** The records after a Control-click on [r]. *)
Lemma multi_heap_lookup (h : list HeadshotData) (b : bool) (r r' : loc) :
  from_option is_selected false (alter (with_is_selected b) r h !! r')
  = if decide (r' = r) then (if h !! r is Some _ then b else false)
    else from_option is_selected false (h !! r').
Proof.
  case_decide as Heq.
  - subst. rewrite list_lookup_alter_eq. by destruct (h !! r).
  - by rewrite list_lookup_alter_ne by done.
Qed.

(** C2 (amended).  In a well-formed collection, for distinct indices [i] and
    [j] in the bounds of both the collection and the gallery's item list, a
    selection with the Control modifier flips the flag of the record at the
    index and leaves every other record as it was; when no record of the
    collection is selected at the start, toggling [i] and then [j] makes the
    current selection the two records, in collection order. *)
Theorem select_image_multi_toggles (i j : Z) (s : State) (ri rj : loc) :
  wf s →
  0 ≤ i < Z.of_nat (length (gallery_items s)) →
  0 ≤ j < Z.of_nat (length (gallery_items s)) →
  headshot_data s !! Z.to_nat i = Some ri →
  headshot_data s !! Z.to_nat j = Some rj →
  i ≠ j →
  let s1 := state_of (select_image i Qt_ControlModifier s) in
  let s2 := state_of (select_image j Qt_ControlModifier s1) in
  is_selected_of s1 ri = negb (is_selected_of s ri) ∧
  (∀ d, heap s !! ri = Some d →
        heap s1 !! ri = Some (with_is_selected (negb (is_selected d)) d)) ∧
  (∀ r', r' ≠ ri → heap s1 !! r' = heap s !! r') ∧
  headshot_data s1 = headshot_data s ∧
  (get_selected_images s = [] →
   get_selected_images s2 = if decide (i < j) then [ri; rj] else [rj; ri]).
Proof.
  intros Hwf Hgi Hgj Hi Hj Hij s1 s2.
  pose proof (in_bounds_not_out _ _ _ Hgi Hi) as Hini.
  pose proof (wf_lookup _ _ _ Hwf Hi) as [di Hdi].
  pose proof (wf_lookup _ _ _ Hwf Hj) as [dj Hdj].
  assert (ri ≠ rj) as Hne.
  { intros ->. destruct Hwf as [Hnd _].
    pose proof (NoDup_lookup _ _ _ _ Hnd Hi Hj). lia. }
  assert (s1 = with_selection
                 (alter (with_is_selected (negb (is_selected_of s ri))) ri (heap s))
                 (<[Z.to_nat i := negb (is_selected_of s ri)]> (gallery_items s)) s)
    as Hs1.
  { unfold s1. by rewrite (select_image_multi_run _ _ _ Hini Hi). }
  assert (¬ out_of_bounds j s1) as Hinj.
  { rewrite Hs1. unfold out_of_bounds. cbn. rewrite length_insert.
    apply (in_bounds_not_out _ _ _ Hgj Hj). }
  assert (headshot_data s1 !! Z.to_nat j = Some rj) as Hj1 by (by rewrite Hs1).
  assert (s2 = with_selection
                 (alter (with_is_selected (negb (is_selected_of s1 rj))) rj (heap s1))
                 (<[Z.to_nat j := negb (is_selected_of s1 rj)]> (gallery_items s1)) s1)
    as Hs2.
  { unfold s2. by rewrite (select_image_multi_run _ _ _ Hinj Hj1). }
  split_and!.
  - rewrite Hs1, is_selected_of_with_selection, multi_heap_lookup.
    by rewrite decide_True, Hdi by done.
  - intros d Hd. rewrite Hs1. cbn. rewrite list_lookup_alter_eq, Hd. cbn.
    unfold is_selected_of. by rewrite Hd.
  - intros r' Hr'. rewrite Hs1. cbn. by rewrite list_lookup_alter_ne by done.
  - by rewrite Hs1.
  - intros Hempty.
    assert (∀ r, r ∈ headshot_data s → is_selected_of s r = false) as Hnone.
    { intros r Hr. apply not_true_is_false. intros Hsel.
      by apply (filter_nil_not_elem_of _ _ r Hempty Hsel). }
    assert (is_selected_of s1 rj = false) as Hrj.
    { rewrite Hs1, is_selected_of_with_selection, multi_heap_lookup.
      rewrite decide_False by done. apply Hnone.
      by eapply list_elem_of_lookup_2. }
    assert (∀ r : loc, r ∈ headshot_data s →
              (is_selected_of s2 r = true) ↔ (r = ri ∨ r = rj)) as Hsel.
    { intros r Hr. rewrite Hs2, is_selected_of_with_selection, multi_heap_lookup.
      rewrite Hrj. case_decide as Hrrj.
      - subst r. rewrite Hs1. cbn. rewrite list_lookup_alter_ne, Hdj by done.
        naive_solver.
      - change (from_option is_selected false (heap s1 !! r))
          with (is_selected_of s1 r).
        rewrite Hs1, is_selected_of_with_selection, multi_heap_lookup.
        case_decide as Hrri.
        + subst r. rewrite Hdi.
          rewrite (Hnone ri) by (by eapply list_elem_of_lookup_2). naive_solver.
        + change (from_option is_selected false (heap s !! r))
            with (is_selected_of s r). rewrite (Hnone r Hr). naive_solver. }
    assert (headshot_data s2 = headshot_data s) as Hhd by (by rewrite Hs2, Hs1).
    unfold get_selected_images. rewrite Hhd.
    destruct Hwf as [Hnd _].
    case_decide as Hlt.
    + apply (filter_two _ _ (Z.to_nat i) (Z.to_nat j)); [done..|lia|done].
    + apply (filter_two _ _ (Z.to_nat j) (Z.to_nat i)); [done..|lia|].
      intros r Hr. rewrite (Hsel r Hr). naive_solver.
Qed.

(** C2, witness: Control-clicks on the third and then the first record of a
    freshly loaded directory. *)
Lemma select_image_multi_toggles_witness :
  let s1 := state_of (select_image 2 Qt_ControlModifier loaded) in
  let s2 := state_of (select_image 0 Qt_ControlModifier s1) in
  is_selected_of s1 2%nat = negb (is_selected_of loaded 2%nat) ∧
  (∀ d, heap loaded !! 2%nat = Some d →
        heap s1 !! 2%nat = Some (with_is_selected (negb (is_selected d)) d)) ∧
  (∀ r', r' ≠ 2%nat → heap s1 !! r' = heap loaded !! r') ∧
  headshot_data s1 = headshot_data loaded ∧
  (get_selected_images loaded = [] →
   get_selected_images s2 = if decide (2 < 0) then [2%nat; 0%nat] else [0%nat; 2%nat]).
Proof.
  apply (select_image_multi_toggles 2 0 loaded 2%nat 0%nat).
  - exact loaded_wf.
  - vm_compute. split; [discriminate | reflexivity].
  - vm_compute. split; [discriminate | reflexivity].
  - reflexivity.
  - reflexivity.
  - discriminate.
Defined.

(** C2, counterexample: the claim for all distinct indices in the
    collection's bounds fails.  Indices 12 and 13 are in the bounds of a
    loaded directory's 24 records, but beyond the gallery's 12 items:
    Control-clicks on them select nothing. *)
Lemma select_image_multi_beyond_gallery :
  ¬ (∀ (s : State) (i j : Z) (ri rj : loc),
       wf s →
       0 ≤ i < Z.of_nat (length (headshot_data s)) →
       0 ≤ j < Z.of_nat (length (headshot_data s)) →
       headshot_data s !! Z.to_nat i = Some ri →
       headshot_data s !! Z.to_nat j = Some rj →
       i < j →
       get_selected_images s = [] →
       get_selected_images
         (state_of (select_image j Qt_ControlModifier
            (state_of (select_image i Qt_ControlModifier s)))) = [ri; rj]).
Proof.
  intros H.
  assert (0 ≤ 12 < Z.of_nat (length (headshot_data loaded))) as Hi
    by (vm_compute; split; [discriminate | reflexivity]).
  assert (0 ≤ 13 < Z.of_nat (length (headshot_data loaded))) as Hj
    by (vm_compute; split; [discriminate | reflexivity]).
  pose proof (H loaded 12 13 12%nat 13%nat loaded_wf Hi Hj eq_refl eq_refl
                eq_refl eq_refl) as Hc.
  vm_compute in Hc. discriminate Hc.
Qed.

(** C3.  For every state, every modifier and every index outside the
    collection's bounds (negative, or at least the collection's length),
    [select_image] returns normally, leaves the whole state as it was, so
    every record's flag, every gallery item and the current selection, and
    only logs a warning. *)
Theorem select_image_out_of_bounds (index modifiers : Z) (s : State) :
  index < 0 ∨ index >= Z.of_nat (length (headshot_data s)) →
  select_image index modifiers s
  = (tt, s, [Log WARNING "Image selection index out of bounds: {index}" [AInt index]]).
Proof.
  intros Hoob. apply select_image_out_of_bounds_run.
  unfold out_of_bounds. tauto.
Qed.

Lemma select_image_out_of_bounds_witness :
  select_image 24 Qt_ControlModifier loaded
  = (tt, loaded, [Log WARNING "Image selection index out of bounds: {index}" [AInt 24]]).
Proof.
  apply (select_image_out_of_bounds 24 Qt_ControlModifier loaded).
  right. vm_compute. discriminate.
Defined.

(** * Presets *)

Lemma for_each_skip {A} (body : nat → A → Run unit) (s : State) (l : list A) :
  (∀ i x, body i x s = (tt, s, [])) →
  ∀ i, for_each i l body s = (tt, s, []).
Proof.
  intros Hbody. induction l as [|x l IH]; intros i; [done|].
  cbn [for_each]. by rewrite (run_bind _ _ _ _ _ _ _ _ _ (Hbody i x) (IH (S i))).
Qed.

Lemma apply_preset_known_run preset_name image_data parameters s :
  presets s !! preset_name = Some parameters →
  PresetManager_apply_preset preset_name image_data s
  = (true, s,
     [ Api (apply_preset_request (file_path_of s image_data) preset_name);
       Emit (preset_applied preset_name);
       Log INFO "Preset '{preset_name}' applied successfully" [AStr preset_name];
       Log INFO "Refreshing gallery with {len(self.headshot_data)} images"
         [AInt (Z.of_nat (length (headshot_data s)))] ]).
Proof.
  intros Hp. unfold PresetManager_apply_preset.
  rewrite run_bind_unfold. unfold get at 1. rewrite Hp. reflexivity.
Qed.

Lemma apply_preset_unknown_run preset_name image_data s :
  presets s !! preset_name = None →
  PresetManager_apply_preset preset_name image_data s = (false, s, []).
Proof.
  intros Hp. unfold PresetManager_apply_preset.
  rewrite run_bind_unfold. unfold get at 1. rewrite Hp. reflexivity.
Qed.

(** C4 (amended).  After [load_presets] the name "Studio Light" resolves to
    brightness 20, contrast 10, warmth 8.  Applying a preset that is in the
    catalog sends one request to the backend for the record, emits
    [preset_applied], returns [True] and leaves the whole state, and so the
    record's adjustment mapping, as it was: the preset's parameters are
    resolved but not merged. *)
Theorem apply_preset_known (preset_name : string) (image_data : loc)
    (parameters : Settings) (s : State) :
  get_preset_settings preset_name s = Some parameters →
  get_preset_settings "Studio Light" (state_of (load_presets s)) = Some studio_light ∧
  PresetManager_apply_preset preset_name image_data s
  = (true, s,
     [ Api (apply_preset_request (file_path_of s image_data) preset_name);
       Emit (preset_applied preset_name);
       Log INFO "Preset '{preset_name}' applied successfully" [AStr preset_name];
       Log INFO "Refreshing gallery with {len(self.headshot_data)} images"
         [AInt (Z.of_nat (length (headshot_data s)))] ]) ∧
  edit_settings_of (state_of (PresetManager_apply_preset preset_name image_data s))
    image_data = edit_settings_of s image_data.
Proof.
  intros Hp. split; [|split].
  - reflexivity.
  - by apply (apply_preset_known_run _ _ parameters).
  - by rewrite (apply_preset_known_run _ _ _ _ Hp).
Qed.

Lemma apply_preset_known_witness :
  get_preset_settings "Studio Light" (state_of (load_presets loaded)) = Some studio_light ∧
  PresetManager_apply_preset "Studio Light" 0%nat loaded
  = (true, loaded,
     [ Api (apply_preset_request (file_path_of loaded 0%nat) "Studio Light");
       Emit (preset_applied "Studio Light");
       Log INFO "Preset '{preset_name}' applied successfully" [AStr "Studio Light"];
       Log INFO "Refreshing gallery with {len(self.headshot_data)} images"
         [AInt (Z.of_nat (length (headshot_data loaded)))] ]) ∧
  edit_settings_of (state_of (PresetManager_apply_preset "Studio Light" 0%nat loaded))
    0%nat = edit_settings_of loaded 0%nat.
Proof.
  apply (apply_preset_known "Studio Light" 0%nat studio_light loaded).
  reflexivity.
Defined.

(** C4, counterexample: applying "Studio Light" to the first record of a
    loaded directory, whose adjustment mapping is empty, succeeds and the
    mapping is still empty: the preset's three entries are not in it. *)
Lemma apply_preset_does_not_merge :
  ¬ (∀ (s : State) (preset_name : string) (image_data : loc) (parameters : Settings),
       get_preset_settings preset_name s = Some parameters →
       result (PresetManager_apply_preset preset_name image_data s) = true →
       edit_settings_of
         (state_of (PresetManager_apply_preset preset_name image_data s)) image_data
       = parameters ∪ edit_settings_of s image_data).
Proof.
  intros H.
  pose proof (H loaded "Studio Light" 0%nat studio_light eq_refl eq_refl) as Hc.
  apply (f_equal (λ m : Settings, m !! "brightness")) in Hc.
  vm_compute in Hc. discriminate Hc.
Qed.

(** C5.  For every name that is not in the catalog: [apply_preset] returns
    [False] for every record, with no backend request, no signal and no
    change of the state; applying it to the selected records changes nothing
    either.  With the stub backend [False] is returned for no other
    reason. *)
Theorem apply_preset_unknown (preset_name : string) (s : State) :
  get_preset_settings preset_name s = None →
  (∀ image_data,
     PresetManager_apply_preset preset_name image_data s = (false, s, [])) ∧
  apply_preset_to_selected preset_name s = (tt, s, []) ∧
  (∀ name image_data,
     result (PresetManager_apply_preset name image_data s) = false
     ↔ get_preset_settings name s = None).
Proof.
  intros Hp. split_and!.
  - intros image_data. by apply apply_preset_unknown_run.
  - unfold apply_preset_to_selected. rewrite run_bind_unfold. unfold get at 1.
    rewrite for_each_skip; [done|]. intros _ image_data.
    by rewrite (run_bind _ _ _ _ _ _ _ _ _
                  (apply_preset_unknown_run _ image_data _ Hp) eq_refl).
  - intros name image_data. unfold get_preset_settings.
    destruct (presets s !! name) as [p|] eqn:Hn.
    + by rewrite (apply_preset_known_run _ _ _ _ Hn).
    + by rewrite (apply_preset_unknown_run _ _ _ Hn).
Qed.

Lemma apply_preset_unknown_witness :
  (∀ image_data,
     PresetManager_apply_preset "Nonexistent" image_data loaded = (false, loaded, [])) ∧
  apply_preset_to_selected "Nonexistent" loaded = (tt, loaded, []) ∧
  (∀ name image_data,
     result (PresetManager_apply_preset name image_data loaded) = false
     ↔ get_preset_settings name loaded = None).
Proof.
  apply (apply_preset_unknown "Nonexistent" loaded). reflexivity.
Defined.

Lemma save_preset_run preset_name settings s :
  save_preset preset_name settings s
  = (true, set_presets (<[preset_name := settings]> (presets s)) s,
     [ Print "Saving preset '{preset_name}' with settings {settings}"
         [AStr preset_name; ADict settings];
       Emit (preset_saved preset_name) ]).
Proof. reflexivity. Qed.

Lemma mock_presets_lookup_None name :
  name ∉ ["Portrait Enhance"; "Studio Light"; "Natural Look"] →
  mock_presets !! name = None.
Proof.
  intros Hn. unfold mock_presets.
  rewrite !lookup_insert_ne by (intros <-; apply Hn; set_solver).
  apply lookup_empty.
Qed.

Lemma preset_ops_never_stored name ops : ∀ s,
  presets s !! name = None →
  (∀ o, o ∈ ops → name ∉ stored_names o) →
  presets (preset_ops ops s) !! name = None.
Proof.
  induction ops as [|o ops IH]; intros s Hs Hops; [done|].
  cbn [preset_ops]. apply IH; [|intros o' Ho'; apply Hops; set_solver].
  assert (name ∉ stored_names o) as Ho by (apply Hops; set_solver).
  destruct o as [|n st].
  - change (presets (state_of (preset_op OpLoadPresets s))) with mock_presets.
    by apply mock_presets_lookup_None.
  - change (presets (state_of (preset_op (OpSavePreset n st) s)))
      with (<[n := st]> (presets s)).
    rewrite lookup_insert_ne; [done|]. intros <-. apply Ho. cbn. set_solver.
Qed.

(** C10.  [save_preset] returns [True]; afterwards the name resolves to the
    saved mapping, whatever was stored under it before, and every other name
    resolves as before.  A name that no operation on the catalog has saved
    or loaded resolves to [None]. *)
Theorem save_preset_round_trip (preset_name : string) (settings : Settings) (s : State) :
  result (save_preset preset_name settings s) = true ∧
  get_preset_settings preset_name (state_of (save_preset preset_name settings s))
  = Some settings ∧
  (∀ other, other ≠ preset_name →
     get_preset_settings other (state_of (save_preset preset_name settings s))
     = get_preset_settings other s) ∧
  (∀ ops : list PresetOp,
     (∀ o, o ∈ ops → preset_name ∉ stored_names o) →
     get_preset_settings preset_name (preset_ops ops constructed) = None).
Proof.
  rewrite save_preset_run. unfold get_preset_settings, result, state_of. cbn.
  split_and!.
  - done.
  - apply lookup_insert_eq.
  - intros other Hne. by rewrite lookup_insert_ne.
  - intros ops Hops. by apply preset_ops_never_stored.
Qed.

(** * Batch submission *)

(** C7.  When no record is selected, [submit_gallery_settings] does nothing:
    the state is as before and nothing is requested, so the batch entry
    points are not reached.  Called with no images, for every settings
    mapping, [apply_batch_edits] itself processes no image, sends no backend
    request and leaves the state as it was. *)
Theorem submit_gallery_settings_empty (s : State) :
  get_selected_images s = [] →
  submit_gallery_settings s = (tt, s, []) ∧
  (∀ settings : Settings,
     apply_batch_edits [] settings s
     = (tt, s,
        [ Print "Batch processing: {len(images)} images" [AInt 0];
          Emit (operation_completed "batch_edit" []);
          Print "Operation '{operation_name}' completed with result: {type(result)}"
            [AStr "batch_edit"; AStr "<class 'list'>"] ])).
Proof.
  intros Hsel. split.
  - unfold submit_gallery_settings. rewrite run_bind_unfold. unfold get at 1.
    rewrite Hsel. reflexivity.
  - reflexivity.
Qed.

Lemma submit_gallery_settings_empty_witness :
  submit_gallery_settings loaded = (tt, loaded, []) ∧
  (∀ settings : Settings,
     apply_batch_edits [] settings loaded
     = (tt, loaded,
        [ Print "Batch processing: {len(images)} images" [AInt 0];
          Emit (operation_completed "batch_edit" []);
          Print "Operation '{operation_name}' completed with result: {type(result)}"
            [AStr "batch_edit"; AStr "<class 'list'>"] ])).
Proof.
  apply (submit_gallery_settings_empty loaded). vm_compute. reflexivity.
Defined.

(** * Loading a directory *)

Lemma set_heap_compose f g s : set_heap g (set_heap f s) = set_heap (g ∘ f) s.
Proof. done. Qed.

Lemma alter_last {A} (f : A → A) (l : list A) (x : A) :
  alter f (length l) (l ++ [x]) = l ++ [f x].
Proof.
  rewrite <- (Nat.add_0_r (length l)). by rewrite alter_app_r.
Qed.

Lemma load_image_run i total file_path s :
  load_image i total file_path s
  = (length (heap s),
     set_heap (λ h, h ++ [loaded_record file_path]) s,
     [ Emit (scan_progress (Ratio (i + 1) total));
       Api (get_image_metadata_request file_path) ]).
Proof.
  destruct s as [h p st g hd eci ees epl hci hs hv hpl cd dpl].
  cbv beta iota zeta delta [load_image mbind Run_bind bind emit event alloc
    get_image_metadata write_metadata modify mret Run_ret ret set_heap
    heap presets settings gallery_items headshot_data editor_current_image
    editor_edit_settings editor_preview_label hue_current_image hue_slider
    hue_value hue_preview_label current_directory dir_path_label
    success data].
  by rewrite alter_last.
Qed.

Lemma load_images_loop_run file_paths : ∀ i total images s,
  ∃ t, load_images_loop i total file_paths images s
       = (images ++ seq (length (heap s)) (length file_paths),
          set_heap (λ h, h ++ (loaded_record <$> file_paths)) s, t).
Proof.
  induction file_paths as [|path rest IH]; intros i total images s.
  - exists []. destruct s. unfold set_heap. cbn. by rewrite !app_nil_r.
  - cbn [load_images_loop].
    destruct (IH (S i) total (images ++ [length (heap s)])
                (set_heap (λ h, h ++ [loaded_record path]) s)) as [t Ht].
    exists ([ Emit (scan_progress (Ratio (i + 1) total));
              Api (get_image_metadata_request path) ] ++ t).
    rewrite (run_bind _ _ _ _ _ _ _ _ _ (load_image_run i total path s) Ht).
    f_equal. f_equal.
    + cbn. by rewrite <- app_assoc, length_app, Nat.add_1_r.
    + rewrite set_heap_compose. destruct s; unfold set_heap; cbn.
      f_equal. by rewrite <- app_assoc.
Qed.

Lemma if_nil_id {A} `{EqDecision A} (l : list A) :
  (if decide (l = []) then [] else l) = l.
Proof. by case_decide. Qed.

Lemma files_loaded_run images s :
  ∃ t, emit (files_loaded images) s = (tt, set_headshot_data images s, t).
Proof.
  eexists.
  cbv beta iota zeta delta [emit event mbind Run_bind bind mret Run_ret ret
    HeadshotGalleryTab_on_images_loaded MainWindow_on_images_loaded
    refresh_gallery modify get logger print].
  rewrite !if_nil_id. reflexivity.
Qed.

Lemma load_images_run file_paths s :
  ∃ t, load_images file_paths s
       = (seq (length (heap s)) (length file_paths),
          set_headshot_data (seq (length (heap s)) (length file_paths))
            (set_heap (λ h, h ++ (loaded_record <$> file_paths)) s), t).
Proof.
  destruct (load_images_loop_run file_paths 0 (length file_paths) [] s) as [t1 H1].
  destruct (files_loaded_run (seq (length (heap s)) (length file_paths))
              (set_heap (λ h, h ++ (loaded_record <$> file_paths)) s)) as [t2 H2].
  eexists. unfold load_images.
  erewrite run_bind; [reflexivity | reflexivity |].
  erewrite run_bind; [reflexivity | exact H1 |].
  cbn [app].
  erewrite run_bind; [reflexivity | exact H2 | reflexivity].
Qed.

Lemma load_directory_run directory_path s :
  ∃ t, load_directory directory_path s
       = (tt,
          set_headshot_data (seq (length (heap s)) 24)
            (set_heap (λ h, h ++ (loaded_record <$> mock_files directory_path)) s),
          t).
Proof.
  destruct (load_images_run (mock_files directory_path) s) as [t1 H1].
  eexists. unfold load_directory.
  erewrite run_bind; [reflexivity | reflexivity |].
  erewrite run_bind; [reflexivity | exact H1 | reflexivity].
Qed.

Lemma load_directory_state directory_path s :
  state_of (load_directory directory_path s)
  = set_headshot_data (seq (length (heap s)) 24)
      (set_heap (λ h, h ++ (loaded_record <$> mock_files directory_path)) s).
Proof.
  destruct (load_directory_run directory_path s) as [t ->]. reflexivity.
Qed.

Lemma loaded_record_lookup directory_path (h : list HeadshotData) (i : nat) :
  (i < 24)%nat →
  (h ++ (loaded_record <$> mock_files directory_path)) !! (length h + i)%nat
  = Some (loaded_record
            (os_path_join directory_path
               ("headshot_" +:+ format_03d (S i) +:+ ".jpg"))).
Proof.
  intros Hi. rewrite lookup_app_r by lia.
  replace (length h + i - length h)%nat with i by lia.
  unfold mock_files. rewrite !list_lookup_fmap, lookup_seq_lt by done.
  reflexivity.
Qed.

(** C9 (amended).  Loads do not overlap and carry no generation tag: a call
    of [load_directory] scans, loads and delivers its result before it
    returns, so after two loads in a row the collection is the 24 records
    the second load created, with the second directory's paths.  The
    delivery itself applies whatever result it is given: after
    [files_loaded] is emitted with a list of records, that list is the
    collection. *)
Theorem load_directory_latest (d1 d2 : string) (images : list loc) (s : State) :
  let s1 := state_of (load_directory d1 s) in
  let s2 := state_of (load_directory d2 s1) in
  headshot_data s1 = seq (length (heap s)) 24 ∧
  headshot_data s2 = seq (length (heap s) + 24) 24 ∧
  (∀ i, (i < 24)%nat →
     file_path_of s2 (length (heap s) + 24 + i)
     = os_path_join d2 ("headshot_" +:+ format_03d (S i) +:+ ".jpg")) ∧
  headshot_data (state_of (emit (files_loaded images) s)) = images.
Proof.
  intros s1 s2.
  assert (length (heap s1) = (length (heap s) + 24)%nat) as Hlen.
  { unfold s1. rewrite load_directory_state.
    cbn [heap set_heap set_headshot_data].
    rewrite length_app, length_fmap. unfold mock_files.
    by rewrite length_fmap, length_seq. }
  split_and!.
  - unfold s1. by rewrite load_directory_state.
  - unfold s2. rewrite load_directory_state.
    cbn [headshot_data set_heap set_headshot_data]. by rewrite Hlen.
  - intros i Hi. unfold s2, file_path_of. rewrite load_directory_state.
    cbn [heap set_heap set_headshot_data].
    rewrite <- Hlen. by rewrite loaded_record_lookup.
  - destruct (files_loaded_run images s) as [t ->]. reflexivity.
Qed.

(** C9, counterexample: a result that arrives after a newer load is applied,
    not discarded.  After a load of "/old" and then of "/new", delivering
    the first load's records once more makes them the collection again. *)
Lemma late_result_overwrites :
  ¬ (∀ (s : State) (d_old d_new : string),
       let s_old := state_of (load_directory d_old s) in
       let s_new := state_of (load_directory d_new s_old) in
       headshot_data
         (state_of (emit (files_loaded (headshot_data s_old)) s_new))
       = headshot_data s_new).
Proof.
  intros H. specialize (H initial_state "/old" "/new").
  vm_compute in H. discriminate H.
Qed.

(** * Invariants of the event loop *)

(** ** Preservation of a state predicate *)

Lemma inv_ret {A} I (a : A) : inv I (mret a).
Proof. by intros s Hs. Qed.

Lemma inv_bind {A B} I (m : Run A) (k : A → Run B) :
  inv I m → (∀ a, inv I (k a)) → inv I (m ≫= k).
Proof.
  intros Hm Hk s Hs. rewrite state_of_bind. by apply Hk, Hm.
Qed.

Lemma inv_get_bind {B} I (k : State → Run B) :
  (∀ s0, I s0 → inv I (k s0)) → inv I (get ≫= k).
Proof.
  intros Hk s Hs. rewrite state_of_bind. by apply Hk.
Qed.

Lemma inv_event I e : inv I (event e).
Proof. by intros s Hs. Qed.

Lemma inv_for_each {A} I (body : nat → A → Run unit) (l : list A) :
  (∀ i x, inv I (body i x)) → ∀ i, inv I (for_each i l body).
Proof.
  intros Hbody. induction l as [|x l IH]; intros i; cbn [for_each].
  - apply inv_ret.
  - apply inv_bind; [apply Hbody | intros _; apply IH].
Qed.

Lemma inv_run_actions I int actions :
  (∀ a, a ∈ actions → inv I (perform int a)) →
  ∀ s, I s → I (run_actions int actions s).
Proof.
  unfold run_actions.
  induction actions as [|a actions IH]; intros Hall s Hs; [done|].
  cbn [foldl]. apply IH.
  - intros a' Ha'. apply Hall. set_solver.
  - apply Hall; [set_solver | done].
Qed.

(** Decomposition of a computation into its state-changing primitives. *)
Ltac run_unfold :=
  unfold choose_directory, load_headshots, apply_preset_to_selected,
    submit_gallery_settings, reset_gallery_settings, on_tab_changed,
    on_slider_changed, apply_similar_settings, reset_editor_settings,
    save_current_edits,
    save_preset, closeEvent, shutdown, save_settings, set_setting,
    set_current_image_for_editing, EditorTab_set_current_image,
    HueTab_set_current_image, load_image_settings, update_ui_from_settings,
    refresh_preview, update_preview, apply_batch_edits, process_batch,
    process_single_image, PresetManager_apply_preset,
    HeadshotAPIClient_apply_preset, adjust_hue, save_image, save_edited_image,
    get_similar_images, on_processing_finished, on_processing_progress,
    on_preset_applied, on_presets_loaded, refresh_gallery,
    on_operation_completed, logger, print, set_selected, clear_selection,
    clear_one, select_image, emit.

Ltac inv_steps leaf :=
  repeat first
    [ match goal with
      | |- inv _ (mret _) => apply inv_ret
      | |- inv _ (event _) => apply inv_event
      | |- inv _ (get ≫= _) => apply inv_get_bind; intros ? ?
      | |- inv _ (_ ≫= _) => apply inv_bind; [|intros ?]
      | |- inv _ (for_each _ _ _) => apply inv_for_each; intros ? ?
      end
    | leaf
    | match goal with
      | |- inv _ (match ?x with _ => _ end) => destruct x eqn:?
      end
    | progress (run_unfold; cbv beta iota zeta) ].

(** * Live hue adjustment *)

(** ** What the slots of the hue tab leave alone *)

Ltac hue_leaf :=
  idtac;
  match goal with
  | H : ∀ x, inv _ (?k x) |- inv _ (?k _) => apply H
  | H : hue_frame _ |- inv _ (modify (set_hue_slider _)) => apply (proj1 H)
  | H : hue_frame _ |- inv _ (modify (set_hue_value _)) =>
      apply (proj1 (proj2 H))
  | H : hue_frame _ |- inv _ (modify (set_hue_preview_label _)) =>
      apply (proj2 (proj2 H))
  end.

Lemma inv_QSlider_setValue I (valueChanged : Z → Run unit) :
  hue_frame I → (∀ v, inv I (valueChanged v)) →
  ∀ value, inv I (QSlider_setValue valueChanged value).
Proof.
  intros HI Hk value. unfold QSlider_setValue. inv_steps hue_leaf.
Qed.

Lemma inv_QLineEdit_setText I (textChanged : string → Run unit) :
  hue_frame I → (∀ t, inv I (textChanged t)) →
  ∀ text, inv I (QLineEdit_setText textChanged text).
Proof.
  intros HI Hk text. unfold QLineEdit_setText. inv_steps hue_leaf.
Qed.

Lemma inv_update_hue_body I (setText : string → Run unit) :
  hue_frame I → (∀ t, inv I (setText t)) →
  ∀ value, inv I (update_hue_body setText value).
Proof.
  intros HI Hk value. unfold update_hue_body. inv_steps hue_leaf.
Qed.

Lemma inv_update_slider_value_field_body I (setText : string → Run unit) :
  hue_frame I → (∀ t, inv I (setText t)) →
  ∀ value, inv I (update_slider_value_field_body setText value).
Proof.
  intros HI Hk value. unfold update_slider_value_field_body.
  inv_steps hue_leaf.
Qed.

Lemma inv_update_slider_from_text_body I int (setValue : Z → Run unit) :
  hue_frame I → (∀ v, inv I (setValue v)) →
  ∀ text, inv I (update_slider_from_text_body int setValue text).
Proof.
  intros HI Hk text. unfold update_slider_from_text_body. inv_steps hue_leaf.
Qed.

Lemma inv_valueChanged I int :
  hue_frame I → ∀ depth value, inv I (valueChanged int depth value).
Proof.
  intros HI. induction depth as [|depth IH]; intros value; cbn [valueChanged].
  - apply inv_ret.
  - unfold valueChanged_body. apply inv_bind; [|intros _].
    + apply inv_update_hue_body; [done|]. apply inv_QLineEdit_setText; [done|].
      apply inv_update_slider_from_text_body; [done|].
      by apply inv_QSlider_setValue.
    + apply inv_update_slider_value_field_body; [done|].
      apply inv_QLineEdit_setText; [done|].
      apply inv_update_slider_from_text_body; [done|].
      by apply inv_QSlider_setValue.
Qed.

Lemma inv_hue_slider_setValue I int depth value :
  hue_frame I → inv I (hue_slider_setValue int depth value).
Proof.
  intros HI. apply inv_QSlider_setValue; [done|]. by apply inv_valueChanged.
Qed.

Lemma inv_update_slider_from_text I int depth text :
  hue_frame I → inv I (update_slider_from_text int depth text).
Proof.
  intros HI. apply inv_update_slider_from_text_body; [done|].
  intros v. by apply inv_hue_slider_setValue.
Qed.

Lemma inv_hue_value_setText I int depth text :
  hue_frame I → inv I (hue_value_setText int depth text).
Proof.
  intros HI. apply inv_QLineEdit_setText; [done|].
  intros t. by apply inv_update_slider_from_text.
Qed.

Lemma inv_update_hue I int depth value :
  hue_frame I → inv I (update_hue int depth value).
Proof.
  intros HI. apply inv_update_hue_body; [done|].
  intros t. by apply inv_hue_value_setText.
Qed.

Lemma inv_reset_hue I int depth :
  hue_frame I → inv I (reset_hue int depth).
Proof.
  intros HI. unfold reset_hue. apply inv_get_bind. intros s _.
  destruct (hue_slider s); [|apply inv_ret]. by apply inv_hue_slider_setValue.
Qed.

(** The slots of the hue tab, for an invariant that does not look at the
    tab's widgets. *)
Ltac hue_slots frame :=
  idtac;
  match goal with
  | |- inv _ (hue_slider_setValue _ _ _) =>
      apply inv_hue_slider_setValue; apply frame
  | |- inv _ (hue_value_setText _ _ _) =>
      apply inv_hue_value_setText; apply frame
  | |- inv _ (update_hue _ _ _) => apply inv_update_hue; apply frame
  | |- inv _ (update_slider_from_text _ _ _) =>
      apply inv_update_slider_from_text; apply frame
  | |- inv _ (reset_hue _ _) => apply inv_reset_hue; apply frame
  end.

Lemma same_heap_hue_frame (h : list HeadshotData) :
  hue_frame (λ s, heap s = h).
Proof. by split_and!; intros ? s Hs. Qed.

Lemma update_hue_heap int depth value s :
  heap (state_of (update_hue int depth value s)) = heap s.
Proof.
  by apply (inv_update_hue (λ s', heap s' = heap s) int depth value
              (same_heap_hue_frame (heap s)) s).
Qed.

(** ** The widgets and their slots, step by step *)

Lemma run_bind_congr {A B} (m m' : Run A) (k : A → Run B) s :
  m s = m' s → (m ≫= k) s = (m' ≫= k) s.
Proof. intros Hm. unfold mbind, Run_bind, bind. by rewrite Hm. Qed.

Lemma run_get_bind {B} (k : State → Run B) s : (get ≫= k) s = k s s.
Proof.
  unfold mbind, Run_bind, bind, get. by destruct (k s s) as [[b s2] t2].
Qed.

Lemma in_range_bounded (value : Z) :
  -180 ≤ value ≤ 180 → Z.max hue_min (Z.min hue_max value) = value.
Proof. unfold hue_min, hue_max. lia. Qed.

Lemma set_hue_value_same text s :
  hue_value s = Some text → set_hue_value (Some text) s = s.
Proof. destruct s. cbn. by intros ->. Qed.

Lemma QSlider_setValue_same (k : Z → Run unit) value s :
  -180 ≤ value ≤ 180 → hue_slider s = Some value →
  QSlider_setValue k value s = (tt, s, []).
Proof.
  intros Hv Hs. unfold QSlider_setValue.
  rewrite run_bind_unfold. unfold get at 1. cbv zeta.
  rewrite Hs, (in_range_bounded _ Hv). by rewrite decide_True.
Qed.

Lemma QSlider_setValue_changed (k : Z → Run unit) value current s :
  -180 ≤ value ≤ 180 → hue_slider s = Some current → current ≠ value →
  QSlider_setValue k value s
  = (modify (set_hue_slider (Some value));; k value) s.
Proof.
  intros Hv Hs Hne. unfold QSlider_setValue.
  rewrite run_bind_unfold. unfold get at 1. cbv zeta.
  rewrite Hs, (in_range_bounded _ Hv). rewrite decide_False by done.
  by destruct ((modify (set_hue_slider (Some value));; k value) s) as [[[] ?] ?].
Qed.

Lemma QLineEdit_setText_quiet (textChanged : string → Run unit) text s :
  textChanged text (set_hue_value (Some text) s)
  = (tt, set_hue_value (Some text) s, []) →
  QLineEdit_setText textChanged text s = (tt, hue_text_set text s, []).
Proof.
  intros Hquiet. unfold QLineEdit_setText, hue_text_set.
  rewrite run_bind_unfold. unfold get at 1.
  destruct (hue_value s) as [current|] eqn:Hcur; [|done].
  case_decide as Heq.
  - subst current. by rewrite set_hue_value_same.
  - by rewrite (run_bind _ _ _ tt (set_hue_value (Some text) s) [] tt
                  (set_hue_value (Some text) s) [] eq_refl Hquiet).
Qed.

Lemma update_slider_from_text_body_ignored int (setValue : Z → Run unit) text s :
  (int text = None ∨ ∃ v, int text = Some v ∧ ¬ (-180 ≤ v ≤ 180)) →
  update_slider_from_text_body int setValue text s = (tt, s, []).
Proof.
  intros Hbad. unfold update_slider_from_text_body.
  rewrite run_bind_unfold. unfold get at 1.
  destruct Hbad as [-> | (v & -> & Hv)]; [done|].
  destruct (hue_slider s); [|done]. by rewrite decide_False.
Qed.

Lemma update_slider_from_text_body_settled int (k : Z → Run unit) text value s :
  int text = Some value → hue_slider s = Some value →
  update_slider_from_text_body int (QSlider_setValue k) text s = (tt, s, []).
Proof.
  intros Hint Hs. unfold update_slider_from_text_body.
  rewrite run_bind_unfold. unfold get at 1. rewrite Hint, Hs.
  case_decide as Hv; [|done]. by rewrite (QSlider_setValue_same k value s Hv Hs).
Qed.

Lemma update_slider_from_text_body_accepted int (setValue : Z → Run unit)
    text value current s :
  int text = Some value → -180 ≤ value ≤ 180 → hue_slider s = Some current →
  update_slider_from_text_body int setValue text s = setValue value s.
Proof.
  intros Hint Hv Hs. unfold update_slider_from_text_body.
  rewrite run_bind_unfold. unfold get at 1. rewrite Hint, Hs.
  rewrite decide_True by done.
  by destruct (setValue value s) as [[[] ?] ?].
Qed.

Lemma update_hue_body_ext (setText setText' : string → Run unit) value s :
  setText (str value) s = setText' (str value) s →
  update_hue_body setText value s = update_hue_body setText' value s.
Proof.
  intros Hset. unfold update_hue_body. rewrite !run_get_bind.
  apply run_bind_congr. destruct (hue_value s); [|done]. by rewrite Hset.
Qed.

(** ** What [update_hue] does when the text's slot finds nothing to do *)

Lemma update_hue_quiet_slider value s :
  hue_slider (state_of (update_hue_quiet value s)) = hue_slider s.
Proof.
  destruct s as [h p st g hd eci ees epl [c|] [v|] [t|] [l|] cd dpl];
    reflexivity.
Qed.

Lemma update_hue_quiet_text value s :
  hue_value (state_of (update_hue_quiet value s))
  = hue_value (hue_text_set (str value) s).
Proof.
  destruct s as [h p st g hd eci ees epl [c|] [v|] [t|] [l|] cd dpl];
    reflexivity.
Qed.

Lemma hue_text_set_Some text s :
  hue_value s ≠ None → hue_value (hue_text_set text s) = Some text.
Proof.
  unfold hue_text_set. by destruct (hue_value s) eqn:Ht.
Qed.

Lemma update_hue_quiet_trace value s r :
  hue_current_image s = Some r →
  trace (update_hue_quiet value s)
  = [Api (adjust_hue_request (file_path_of s r) value)].
Proof.
  destruct s as [h p st g hd eci ees epl [c|] [v|] [t|] [l|] cd dpl];
    intros [= <-]; reflexivity.
Qed.

Lemma update_hue_quiet_image value s :
  hue_current_image (state_of (update_hue_quiet value s)) = hue_current_image s
  ∧ heap (state_of (update_hue_quiet value s)) = heap s.
Proof.
  destruct s as [h p st g hd eci ees epl [c|] [v|] [t|] [l|] cd dpl];
    split; reflexivity.
Qed.

(** ** A value outside the range *)

Lemma update_slider_from_text_ignored int depth text s :
  (int text = None ∨ ∃ v, int text = Some v ∧ ¬ (-180 ≤ v ≤ 180)) →
  update_slider_from_text int depth text s = (tt, s, []).
Proof. apply update_slider_from_text_body_ignored. Qed.

Lemma update_hue_out_of_range int depth value s :
  int (str value) = Some value → ¬ (-180 ≤ value ≤ 180) →
  update_hue int depth value s = update_hue_quiet value s.
Proof.
  intros Hint Hv. apply update_hue_body_ext.
  unfold hue_value_setText. rewrite QLineEdit_setText_quiet; [done|].
  apply update_slider_from_text_ignored. right. by exists value.
Qed.

(** C6 (amended).  The range of the hue is checked only where the text of
    the hue field is carried to the slider, in [update_slider_from_text],
    before any mutation: a text that is not an integer, or whose value is
    outside [-180, 180], is ignored; the state is as before, nothing is sent
    to the backend and no error is reported.  [update_hue] checks nothing
    and returns no result.  Called with a value outside the range it writes
    the value into the hue text field, whose slot ignores it, so that the
    slider stays as it is; when a current image is set, it sends exactly one
    adjustment, with that value, to the backend.  For no value does it
    modify a record.  [int] is Python's [int], which reads back what [str]
    prints; the result is the same however many nested signals are
    followed. *)
Theorem hue_adjustment_validation (int : string → option Z) (depth : nat)
    (text : string) (value : Z) (s : State) :
  int (str value) = Some value →
  ¬ (-180 ≤ value ≤ 180) →
  (int text = None ∨ ∃ v, int text = Some v ∧ ¬ (-180 ≤ v ≤ 180)) →
  update_slider_from_text int depth text s = (tt, s, []) ∧
  (∀ any, heap (state_of (update_hue int depth any s)) = heap s) ∧
  hue_slider (state_of (update_hue int depth value s)) = hue_slider s ∧
  (hue_value s ≠ None →
   hue_value (state_of (update_hue int depth value s)) = Some (str value)) ∧
  (∀ r, hue_current_image s = Some r →
        trace (update_hue int depth value s)
        = [Api (adjust_hue_request (file_path_of s r) value)]).
Proof.
  intros Hint Hv Hbad. split_and!.
  - by apply update_slider_from_text_ignored.
  - intros any. apply update_hue_heap.
  - rewrite update_hue_out_of_range by done. apply update_hue_quiet_slider.
  - intros Htext. rewrite update_hue_out_of_range by done.
    rewrite update_hue_quiet_text. by apply hue_text_set_Some.
  - intros r Hr. rewrite update_hue_out_of_range by done.
    by apply update_hue_quiet_trace.
Qed.

Lemma hue_adjustment_validation_witness :
  update_slider_from_text int_decimal signal_depth "200" hue_ready
  = (tt, hue_ready, []) ∧
  (∀ any, heap (state_of (update_hue int_decimal signal_depth any hue_ready))
          = heap hue_ready) ∧
  hue_slider (state_of (update_hue int_decimal signal_depth 200 hue_ready))
  = hue_slider hue_ready ∧
  (hue_value hue_ready ≠ None →
   hue_value (state_of (update_hue int_decimal signal_depth 200 hue_ready))
   = Some (str 200)) ∧
  (∀ r, hue_current_image hue_ready = Some r →
        trace (update_hue int_decimal signal_depth 200 hue_ready)
        = [Api (adjust_hue_request (file_path_of hue_ready r) 200)]).
Proof.
  apply (hue_adjustment_validation int_decimal signal_depth "200" 200 hue_ready).
  - vm_compute. reflexivity.
  - lia.
  - right. exists 200. split; [vm_compute; reflexivity | lia].
Defined.

(** C6, counterexample: a live hue adjustment to 200, outside [-180, 180],
    is not rejected.  With a current image set, [update_hue] called with
    200 writes "200" into the text field and sends the adjustment to the
    backend. *)
Lemma update_hue_accepts_out_of_range :
  ¬ (∀ (int : string → option Z) (depth : nat) (s : State) (value : Z),
       ¬ (-180 ≤ value ≤ 180) →
       update_hue int depth value s = (tt, s, [])).
Proof.
  intros H.
  assert (¬ (-180 ≤ 200 ≤ 180)) as Hout by lia.
  pose proof (H int_decimal signal_depth hue_ready 200 Hout) as Hc.
  apply (f_equal trace) in Hc.
  assert (int_decimal (str 200) = Some 200) as Hint by (vm_compute; reflexivity).
  rewrite (update_hue_out_of_range int_decimal signal_depth 200 hue_ready
             Hint Hout) in Hc.
  rewrite (update_hue_quiet_trace 200 hue_ready 0%nat eq_refl) in Hc.
  discriminate Hc.
Qed.

(** ** A value of the range *)

Lemma run_modify_bind {B} (f : State → State) (k : unit → Run B) s :
  (modify f ≫= k) s = k tt (f s).
Proof.
  unfold mbind, Run_bind, bind, modify. by destruct (k tt (f s)) as [[b s2] t2].
Qed.

Lemma valueChanged_body_settled int (k : Z → Run unit) value s :
  int (str value) = Some value → hue_slider s = Some value →
  valueChanged_body int k value s = update_hue_quiet value s.
Proof.
  intros Hint Hs. unfold valueChanged_body. cbv zeta.
  pose proof (update_hue_quiet_slider value s) as Hs2.
  pose proof (update_hue_quiet_text value s) as Ht2.
  assert (update_hue_body
            (QLineEdit_setText
               (update_slider_from_text_body int (QSlider_setValue k))) value s
          = update_hue_quiet value s) as Hfirst.
  { apply update_hue_body_ext. rewrite QLineEdit_setText_quiet; [done|].
    by apply (update_slider_from_text_body_settled int k (str value) value). }
  destruct (update_hue_quiet value s) as [[[] s2] t] eqn:Hq.
  unfold state_of in Hs2, Ht2; cbn [fst snd] in Hs2, Ht2. rewrite Hs in Hs2.
  assert (update_slider_value_field_body
            (QLineEdit_setText
               (update_slider_from_text_body int (QSlider_setValue k))) value s2
          = (tt, s2, [])) as Hsecond.
  { unfold update_slider_value_field_body. rewrite run_get_bind.
    destruct (hue_value s2) as [text|] eqn:Htext; [|done].
    assert (text = str value) as ->.
    { unfold hue_text_set in Ht2. destruct (hue_value s) eqn:Hold.
      - cbn in Ht2. congruence.
      - congruence. }
    rewrite QLineEdit_setText_quiet.
    - unfold hue_text_set. rewrite Htext. by rewrite set_hue_value_same.
    - by apply (update_slider_from_text_body_settled int k (str value) value). }
  rewrite (run_bind _ _ _ _ _ _ _ _ _ Hfirst Hsecond). by rewrite app_nil_r.
Qed.

Lemma hue_slider_setValue_moved int depth value current s :
  int (str value) = Some value → -180 ≤ value ≤ 180 →
  hue_slider s = Some current → current ≠ value →
  hue_slider_setValue int (S depth) value s
  = update_hue_quiet value (set_hue_slider (Some value) s).
Proof.
  intros Hint Hv Hs Hne. unfold hue_slider_setValue.
  rewrite (QSlider_setValue_changed _ value current) by done.
  rewrite run_modify_bind. cbn [valueChanged].
  by apply valueChanged_body_settled.
Qed.

Lemma update_hue_quiet_settled value s :
  hue_value s = Some (str value) →
  update_hue_quiet value s
  = (get ≫= λ s : State,
       match hue_current_image s with
       | Some r =>
           response ← adjust_hue r value;
           if success response then update_preview else mret tt
       | None =>
           match hue_preview_label s with
           | Some _ =>
               modify (set_hue_preview_label
                 (Some ("Hue Preview" +:+ nl +:+ "No image selected" +:+ nl
                        +:+ "Hue: " +:+ str value +:+ degree)))
           | None => mret tt
           end
       end) s.
Proof.
  intros Ht. unfold update_hue_quiet, update_hue_body.
  rewrite (run_get_bind _ s). rewrite Ht.
  rewrite run_modify_bind. unfold hue_text_set. rewrite Ht.
  by rewrite set_hue_value_same.
Qed.

Lemma update_hue_called int depth value current text s :
  int (str value) = Some value → -180 ≤ value ≤ 180 →
  hue_slider s = Some current → current ≠ value →
  hue_value s = Some text → text ≠ str value →
  update_hue int (S depth) value s
  = (update_hue_quiet value;; update_hue_quiet value)
      (set_hue_slider (Some value) (set_hue_value (Some (str value)) s)).
Proof.
  intros Hint Hv Hs Hne Ht Htne.
  set (s1 := set_hue_slider (Some value) (set_hue_value (Some (str value)) s)).
  assert (hue_value_setText int (S depth) (str value) s
          = update_hue_quiet value s1) as Hset.
  { unfold hue_value_setText, QLineEdit_setText. rewrite run_get_bind, Ht.
    rewrite decide_False by done. rewrite run_modify_bind.
    unfold update_slider_from_text.
    rewrite (update_slider_from_text_body_accepted int _ _ value current)
      by done.
    by apply (hue_slider_setValue_moved int depth value current). }
  unfold update_hue, update_hue_body. rewrite run_get_bind, Ht.
  pose proof (update_hue_quiet_text value s1) as Ht3.
  destruct (update_hue_quiet value s1) as [[[] s3] t1] eqn:Hq.
  unfold state_of in Ht3; cbn [fst snd] in Ht3.
  change (hue_value (hue_text_set (str value) s1)) with (Some (str value))
    in Ht3.
  rewrite (run_bind_unfold (update_hue_quiet value)), Hq.
  rewrite (update_hue_quiet_settled value s3 Ht3).
  rewrite (run_bind_unfold (hue_value_setText int (S depth) (str value))).
  by rewrite Hset.
Qed.

Lemma update_hue_quiet_request value s s0 r :
  hue_current_image s = Some r → heap s = heap s0 →
  trace (update_hue_quiet value s)
  = [Api (adjust_hue_request (file_path_of s0 r) value)].
Proof.
  intros Hr Hh. rewrite (update_hue_quiet_trace value s r Hr).
  unfold file_path_of. by rewrite Hh.
Qed.

(** X24.  The signals of the hue tab settle after one round.  When the
    slider is moved to a new value of its range, its slots set the text
    field to the value and, with a current image, send exactly one
    adjustment to the backend; no record changes.  A text that reads as the
    value, and for the value 0 the reset button, move the slider in the
    same way, and an edit of the text field ends with the text [str]
    prints for the value.  [update_hue] called by the program itself with a
    value the slider does not hold yet moves the slider through the text
    field and so sends the adjustment twice.  [int] is Python's [int], which
    reads back what [str] prints; nothing depends on the number of nested
    signals followed beyond the first. *)
Theorem hue_signals_settle (int : string → option Z) (depth : nat)
    (value current : Z) (r : loc) (s : State) :
  int (str value) = Some value →
  -180 ≤ value ≤ 180 →
  hue_slider s = Some current → current ≠ value →
  hue_current_image s = Some r →
  let moved := hue_slider_setValue int (S depth) value s in
  let request := Api (adjust_hue_request (file_path_of s r) value) in
  hue_slider (state_of moved) = Some value ∧
  (hue_value s ≠ None → hue_value (state_of moved) = Some (str value)) ∧
  heap (state_of moved) = heap s ∧
  trace moved = [request] ∧
  (∀ text, int text = Some value →
     update_slider_from_text int (S depth) text s = moved) ∧
  (value = 0 → reset_hue int (S depth) s = moved) ∧
  (∀ text old, int text = Some value → hue_value s = Some old → old ≠ text →
     let edited := hue_value_setText int (S depth) text s in
     hue_slider (state_of edited) = Some value ∧
     hue_value (state_of edited) = Some (str value) ∧
     trace edited = [request]) ∧
  (∀ old, hue_value s = Some old → old ≠ str value →
     let called := update_hue int (S depth) value s in
     hue_slider (state_of called) = Some value ∧
     hue_value (state_of called) = Some (str value) ∧
     trace called = [request; request]).
Proof.
  intros Hint Hv Hs Hne Hr moved request. subst moved request.
  rewrite (hue_slider_setValue_moved int depth value current s) by done.
  split_and!.
  - by rewrite update_hue_quiet_slider.
  - intros Ht. rewrite update_hue_quiet_text. by apply hue_text_set_Some.
  - by rewrite (proj2 (update_hue_quiet_image _ _)).
  - by apply update_hue_quiet_request.
  - intros text Htext. unfold update_slider_from_text.
    rewrite (update_slider_from_text_body_accepted int _ _ value current)
      by done.
    by apply (hue_slider_setValue_moved int depth value current).
  - intros ->. unfold reset_hue. rewrite run_get_bind, Hs.
    by apply (hue_slider_setValue_moved int depth 0 current).
  - intros text old Htext Hold Holdne edited. subst edited.
    unfold hue_value_setText, QLineEdit_setText.
    rewrite run_get_bind, Hold. rewrite decide_False by done.
    rewrite run_modify_bind. unfold update_slider_from_text.
    rewrite (update_slider_from_text_body_accepted int _ _ value current)
      by done.
    rewrite (hue_slider_setValue_moved int depth value current) by done.
    split_and!.
    + by rewrite update_hue_quiet_slider.
    + rewrite update_hue_quiet_text. by apply hue_text_set_Some.
    + by apply update_hue_quiet_request.
  - intros old Hold Holdne called. subst called.
    rewrite (update_hue_called int depth value current old) by done.
    set (s1 := set_hue_slider (Some value)
                 (set_hue_value (Some (str value)) s)).
    pose proof (update_hue_quiet_image value s1) as [Hi2 Hh2].
    split_and!.
    + rewrite state_of_bind. by rewrite !update_hue_quiet_slider.
    + rewrite state_of_bind. rewrite update_hue_quiet_text.
      apply hue_text_set_Some. by rewrite update_hue_quiet_text.
    + rewrite trace_bind.
      rewrite (update_hue_quiet_request value s1 s r) by done.
      rewrite (update_hue_quiet_request value _ s r); [done| |].
      * by rewrite Hi2.
      * by rewrite Hh2.
Qed.

Lemma hue_signals_settle_witness :
  let moved := hue_slider_setValue int_decimal signal_depth 50 hue_ready in
  let called := update_hue int_decimal signal_depth 50 hue_ready in
  let request := Api (adjust_hue_request "/photos/headshot_001.jpg" 50) in
  hue_slider hue_ready = Some 0 ∧
  hue_slider (state_of moved) = Some 50 ∧
  hue_value (state_of moved) = Some "50" ∧
  trace moved = [request] ∧
  reset_hue int_decimal signal_depth (state_of moved)
  = hue_slider_setValue int_decimal signal_depth 0 (state_of moved) ∧
  hue_slider (state_of called) = Some 50 ∧
  trace called = [request; request].
Proof.
  assert (int_decimal (str 50) = Some 50) as Hint50
    by (vm_compute; reflexivity).
  assert (int_decimal (str 0) = Some 0) as Hint0
    by (vm_compute; reflexivity).
  assert (hue_slider hue_ready = Some 0) as Hs by (vm_compute; reflexivity).
  assert (hue_current_image hue_ready = Some 0%nat) as Hr
    by (vm_compute; reflexivity).
  assert (hue_value hue_ready = Some "0") as Ht by (vm_compute; reflexivity).
  pose proof (hue_signals_settle int_decimal 2 50 0 0%nat hue_ready
                Hint50 ltac:(lia) Hs ltac:(lia) Hr)
    as (Hslider & Htext & _ & Htrace & _ & _ & _ & Hcalled).
  destruct (Hcalled "0" Ht ltac:(vm_compute; discriminate))
    as (Hcs & _ & Hct).
  split_and!.
  - exact Hs.
  - exact Hslider.
  - apply Htext. by rewrite Ht.
  - exact Htrace.
  - apply (hue_signals_settle int_decimal 2 0 50
             0%nat (state_of (hue_slider_setValue int_decimal 3 50 hue_ready))
             Hint0 ltac:(lia) Hslider ltac:(lia)).
    + vm_compute. reflexivity.
    + reflexivity.
  - exact Hcs.
  - exact Hct.
Defined.
(** ** The adjustment invariant is preserved *)

Lemma Inv_modify_frame (f : State → State) :
  (∀ s, heap (f s) = heap s ∧ editor_edit_settings (f s) = editor_edit_settings s) →
  inv Inv (modify f).
Proof.
  intros Hf s [Hr He]. destruct (Hf s) as [Hh Hee].
  unfold Inv, records_ok, state_of, modify; cbn. by rewrite Hh, Hee.
Qed.

Lemma Inv_alter (f : HeadshotData → HeadshotData) (r : loc) :
  (∀ d, adjustments_ok (edit_settings d) → adjustments_ok (edit_settings (f d))) →
  inv Inv (modify (set_heap (alter f r))).
Proof.
  intros Hf s [Hr He]. split; [|done].
  unfold records_ok, state_of, modify; cbn.
  apply Forall_alter; [done|]. intros d _. apply Hf.
Qed.

Lemma Inv_write_is_selected r b : inv Inv (write_is_selected r b).
Proof. by apply Inv_alter. Qed.

Lemma Inv_write_metadata r m : inv Inv (write_metadata r m).
Proof. by apply Inv_alter. Qed.

Lemma Inv_write_edit_settings r e :
  adjustments_ok e → inv Inv (write_edit_settings r e).
Proof. intros He. by apply Inv_alter. Qed.

Lemma Inv_alloc d : adjustments_ok (edit_settings d) → inv Inv (alloc d).
Proof.
  intros Hd s [Hr He]. split; [|done].
  unfold records_ok, state_of, alloc; cbn.
  apply Forall_app. split; [done|]. by apply Forall_singleton.
Qed.

Lemma Inv_set_editor_edit_settings e :
  adjustments_ok e → inv Inv (modify (set_editor_edit_settings e)).
Proof. intros He s [Hr _]. by split. Qed.

Lemma Inv_load_directory directory_path : inv Inv (load_directory directory_path).
Proof.
  intros s [Hr He]. rewrite load_directory_state. split; [|done].
  unfold records_ok; cbn [heap set_heap set_headshot_data].
  apply Forall_app. split; [done|].
  apply Forall_fmap, Forall_true. intros path. cbn. apply map_Forall_empty.
Qed.

Lemma edit_settings_of_ok s r : Inv s → adjustments_ok (edit_settings_of s r).
Proof.
  intros [Hr _]. unfold edit_settings_of.
  destruct (heap s !! r) as [d|] eqn:Hd; cbn; [|apply map_Forall_empty].
  by apply (Forall_lookup_1 _ _ _ _ Hr Hd).
Qed.

Ltac adjustments_ok_solve :=
  first
    [ apply map_Forall_empty
    | apply edit_settings_of_ok; assumption
    | match goal with
      | H : Inv ?s |- adjustments_ok (editor_edit_settings ?s) => apply H
      end ].

Lemma Inv_hue_frame : hue_frame Inv.
Proof.
  split_and!; intros ?; apply Inv_modify_frame; intros ?; split; reflexivity.
Qed.

Ltac Inv_leaf :=
  idtac;
  first
    [ hue_slots Inv_hue_frame
    | match goal with
      | |- inv _ (write_is_selected _ _) => apply Inv_write_is_selected
      | |- inv _ (write_metadata _ _) => apply Inv_write_metadata
      | |- inv _ (write_edit_settings _ _) =>
          apply Inv_write_edit_settings; adjustments_ok_solve
      | |- inv _ (alloc _) => apply Inv_alloc; adjustments_ok_solve
      | |- inv _ (load_directory _) => apply Inv_load_directory
      | |- inv _ (modify (set_editor_edit_settings _)) =>
          apply Inv_set_editor_edit_settings; adjustments_ok_solve
      | |- inv _ (modify _) =>
          apply Inv_modify_frame; intros ?; split; reflexivity
      end ].

Lemma Inv_slider_insert parameter_name value :
  value_ok parameter_name (PInt value) →
  inv Inv (modify (λ s, set_editor_edit_settings
                          (<[parameter_name := PInt value]> (editor_edit_settings s)) s)).
Proof.
  intros Hv s [Hr He]. split; [done|].
  unfold state_of, modify; cbn. by apply map_Forall_insert_2.
Qed.

Lemma from_widgets_value_ok parameter_name value :
  from_widgets (SliderChanged parameter_name value) →
  value_ok parameter_name (PInt value).
Proof.
  intros [Hname Hrange]. unfold value_ok, parameter_range.
  by rewrite decide_True.
Qed.

Lemma Inv_perform int a : from_widgets a → inv Inv (perform int a).
Proof.
  destruct a; intros Hw; cbn [perform];
    try (inv_steps Inv_leaf; fail).
  unfold on_slider_changed.
  apply inv_bind; [by apply Inv_slider_insert, from_widgets_value_ok|].
  intros _. inv_steps Inv_leaf.
Qed.

Lemma Inv_initial_state : Inv initial_state.
Proof.
  split.
  - unfold records_ok. change (heap initial_state) with (@nil HeadshotData).
    apply Forall_nil_2.
  - change (editor_edit_settings initial_state) with (∅ : Settings).
    apply map_Forall_empty.
Qed.

(** ** Well-formedness of the collection is preserved *)

Lemma wf_modify_frame (f : State → State) :
  (∀ s, headshot_data (f s) = headshot_data s ∧ heap (f s) = heap s) →
  inv wf (modify f).
Proof.
  intros Hf s [Hnd Hval]. destruct (Hf s) as [Hhd Hh].
  unfold wf, state_of, modify; cbn. by rewrite Hhd, Hh.
Qed.

Lemma wf_alter (f : HeadshotData → HeadshotData) (r : loc) :
  inv wf (modify (set_heap (alter f r))).
Proof.
  intros s [Hnd Hval]. split; [done|].
  unfold state_of, modify; cbn. intros r' Hr'. rewrite length_alter. by apply Hval.
Qed.

Lemma wf_alloc d : inv wf (alloc d).
Proof.
  intros s [Hnd Hval]. split; [done|].
  unfold state_of, alloc; cbn. intros r' Hr'. rewrite length_app.
  specialize (Hval r' Hr'). lia.
Qed.

Lemma wf_load_directory directory_path : inv wf (load_directory directory_path).
Proof.
  intros s _. rewrite load_directory_state. split.
  - apply NoDup_seq.
  - cbn [heap headshot_data set_heap set_headshot_data]. intros r Hr.
    apply elem_of_seq in Hr. rewrite length_app, length_fmap.
    unfold mock_files. rewrite length_fmap, length_seq. lia.
Qed.

Lemma wf_hue_frame : hue_frame wf.
Proof.
  split_and!; intros ?; apply wf_modify_frame; intros ?; split; reflexivity.
Qed.

Ltac wf_leaf :=
  idtac;
  first
    [ hue_slots wf_hue_frame
    | match goal with
      | |- inv _ (write_is_selected _ _) => apply wf_alter
      | |- inv _ (write_metadata _ _) => apply wf_alter
      | |- inv _ (write_edit_settings _ _) => apply wf_alter
      | |- inv _ (alloc _) => apply wf_alloc
      | |- inv _ (load_directory _) => apply wf_load_directory
      | |- inv _ (modify _) => apply wf_modify_frame; intros ?; split; reflexivity
      end ].

Lemma wf_perform int a : inv wf (perform int a).
Proof.
  destruct a; cbn [perform]; inv_steps wf_leaf.
Qed.

Lemma wf_initial_state : wf initial_state.
Proof.
  split.
  - change (headshot_data initial_state) with (@nil loc). apply NoDup_nil_2.
  - change (headshot_data initial_state) with (@nil loc). intros r Hr.
    by apply elem_of_nil in Hr.
Qed.

(** Every state the user's actions lead to holds a well-formed collection,
    so the selection theorems apply to it. *)
Lemma reachable_wf int actions : wf (run_actions int actions initial_state).
Proof.
  apply inv_run_actions; [|apply wf_initial_state].
  intros a _. apply wf_perform.
Qed.

Lemma editing_session_saves (value : Z) :
  ∃ d, heap (run_actions int_decimal (editing_session value) initial_state)
         !! 0%nat = Some d
       ∧ edit_settings d !! "Brightness" = Some (PInt value).
Proof.
  eexists. split; vm_compute; reflexivity.
Qed.

(** C8 (amended).  [on_slider_changed] stores the name and the value it is
    given without checking them.  When every slider change carries what the
    editor's sliders deliver, one of their twelve names and a value in
    [-100, 100], every action preserves the invariant: in every state the
    actions lead to, each record's adjustment mapping has only those names
    as keys, each with an integer value in [-100, 100]. *)
Theorem adjustments_invariant (int : string → option Z) (actions : list Action) :
  Forall from_widgets actions →
  records_ok (run_actions int actions initial_state).
Proof.
  intros Hall.
  apply (inv_run_actions Inv int actions); [|apply Inv_initial_state].
  intros a Ha. apply Inv_perform.
  by apply (proj1 (Forall_forall _ _) Hall).
Qed.

Lemma adjustments_invariant_witness :
  records_ok (run_actions int_decimal (editing_session 40) initial_state).
Proof.
  apply (adjustments_invariant int_decimal (editing_session 40)).
  repeat constructor; unfold editor_slider_min, editor_slider_max; lia.
Defined.

(** C8, counterexample: the invariant is not preserved by every operation.
    A slider change to 500 for "Brightness", followed by a save, leaves the
    first record with brightness 500, outside the slider's range. *)
Lemma slider_change_not_validated :
  ¬ (∀ (int : string → option Z) (actions : list Action),
       records_ok (run_actions int actions initial_state)).
Proof.
  intros H. specialize (H int_decimal (editing_session 500)).
  destruct (editing_session_saves 500) as (d & Hd & Hb).
  pose proof (Forall_lookup_1 _ _ _ _ H Hd _ _ Hb) as Hv.
  unfold value_ok, parameter_range in Hv.
  rewrite decide_True in Hv by (repeat constructor).
  unfold editor_slider_min, editor_slider_max in Hv. lia.
Qed.

(** Whatever table of names and ranges is declared, some slider change
    followed by a save produces a record outside it. *)
Lemma no_declaration_is_enforced (range : string → option (Z * Z)) :
  ∃ value d,
    heap (run_actions int_decimal (editing_session value) initial_state)
      !! 0%nat = Some d ∧
    edit_settings d !! "Brightness" = Some (PInt value) ∧
    ¬ (∃ lo hi, range "Brightness" = Some (lo, hi) ∧ lo ≤ value ≤ hi).
Proof.
  set (value := match range "Brightness" with Some (_, hi) => hi + 1 | None => 0 end).
  destruct (editing_session_saves value) as (d & Hd & Hb).
  exists value, d. split_and!; [done..|].
  intros (lo & hi & Hr & Hv). unfold value in Hv. rewrite Hr in Hv. lia.
Qed.

(** * Settings *)

(** X1.  [set_setting] followed by [get_setting] on the same key returns the
    stored value, whatever the default; every other key reads as before; a
    key that is absent reads as the default; and every [set_setting] saves,
    printing the updated settings. *)
Theorem set_setting_round_trip (key : string) (value : PyVal) (s : State) :
  let s' := state_of (set_setting key value s) in
  (∀ default, get_setting key default s' = Some value) ∧
  (∀ other default, other ≠ key →
     get_setting other default s' = get_setting other default s) ∧
  (∀ absent default, settings s' !! absent = None →
     get_setting absent default s' = default) ∧
  trace (set_setting key value s)
  = [Print "Saving settings: {self.settings}" [ADict (<[key := value]> (settings s))]].
Proof.
  intros s'.
  assert (settings s' = <[key := value]> (settings s)) as Hs by reflexivity.
  unfold get_setting. rewrite Hs. split_and!.
  - intros default. by rewrite lookup_insert_eq.
  - intros other default Hne. by rewrite lookup_insert_ne.
  - intros absent default ->. done.
  - reflexivity.
Qed.

(** X2.  [load_presets] replaces the catalog by the three fabricated
    presets and returns their names: afterwards a name resolves exactly as
    in the fabricated catalog, so a preset saved before under another name
    is gone. *)
Theorem load_presets_resets_catalog (name : string) (settings : Settings) (s : State) :
  let s1 := state_of (save_preset name settings s) in
  let s2 := state_of (load_presets s1) in
  (∀ n, get_preset_settings n s2 = mock_presets !! n) ∧
  (∀ n, n ∈ result (load_presets s1) ↔ is_Some (get_preset_settings n s2)) ∧
  (name ∉ result (load_presets s1) → get_preset_settings name s2 = None).
Proof.
  cbn zeta.
  change (result (load_presets (state_of (save_preset name settings s))))
    with ["Portrait Enhance"; "Studio Light"; "Natural Look"].
  assert (∀ n, get_preset_settings n
                 (state_of (load_presets (state_of (save_preset name settings s))))
               = mock_presets !! n) as Hget by done.
  split_and!.
  - exact Hget.
  - intros n. rewrite Hget. split.
    + unfold mock_presets. intros Hn. repeat (apply elem_of_cons in Hn as [->|Hn]; [by eexists|]).
      by apply elem_of_nil in Hn.
    + intros [p Hp].
      destruct (decide (n ∈ ["Portrait Enhance"; "Studio Light"; "Natural Look"]))
        as [|Hn]; [done|].
      by rewrite (mock_presets_lookup_None n Hn) in Hp.
  - intros Hn. rewrite Hget. by apply mock_presets_lookup_None.
Qed.

Lemma load_presets_resets_catalog_witness :
  let s1 := state_of (save_preset "Mine" studio_light initial_state) in
  let s2 := state_of (load_presets s1) in
  get_preset_settings "Mine" s1 = Some studio_light ∧
  get_preset_settings "Mine" s2 = None.
Proof.
  split; [reflexivity|].
  apply (proj2 (proj2 (load_presets_resets_catalog "Mine" studio_light initial_state))).
  vm_compute. intros H. apply list_elem_of_In in H. cbn in H.
  repeat (destruct H as [H|H]; [discriminate H|]). done.
Defined.

(** * Tab navigation and the gallery grid *)

Lemma next_tab_mod (current count : Z) :
  0 ≤ current < count → next_tab current count = (current + 1) `mod` count.
Proof.
  intros Hc. unfold next_tab. case_decide.
  - by rewrite Z.mod_small by lia.
  - replace (current + 1) with count by lia. by rewrite Z.mod_same by lia.
Qed.

Lemma iter_next_tab_mod (count : Z) (k : nat) : ∀ current,
  0 ≤ current < count →
  Nat.iter k (λ c, next_tab c count) current = (current + Z.of_nat k) `mod` count.
Proof.
  induction k as [|k IH]; intros current Hc.
  - cbn. rewrite Z.add_0_r. by rewrite Z.mod_small.
  - rewrite Nat.iter_succ, IH by done.
    rewrite next_tab_mod by (apply Z.mod_pos_bound; lia).
    rewrite Zplus_mod_idemp_l. f_equal. lia.
Qed.

(** X3.  With at least one tab and a current index among the tabs, the
    next and the previous tab are among the tabs, each undoes the other, the
    last tab is followed by the first and the first preceded by the last,
    and pressing next once for every tab comes back to the current tab. *)
Theorem tab_navigation_wraps (current count : Z) :
  0 ≤ current < count →
  0 ≤ next_tab current count < count ∧
  0 ≤ previous_tab current count < count ∧
  previous_tab (next_tab current count) count = current ∧
  next_tab (previous_tab current count) count = current ∧
  next_tab (count - 1) count = 0 ∧
  previous_tab 0 count = count - 1 ∧
  Nat.iter (Z.to_nat count) (λ c, next_tab c count) current = current.
Proof.
  intros Hc.
  assert (Nat.iter (Z.to_nat count) (λ c, next_tab c count) current = current)
    as ->.
  { rewrite iter_next_tab_mod by done. rewrite Z2Nat.id by lia.
    rewrite <- (Z.mul_1_l count) at 1. rewrite Z.mod_add by lia.
    by rewrite Z.mod_small. }
  unfold next_tab, previous_tab. repeat case_decide; lia.
Qed.

Lemma tab_navigation_wraps_witness :
  0 ≤ next_tab 2 3 < 3 ∧
  0 ≤ previous_tab 2 3 < 3 ∧
  previous_tab (next_tab 2 3) 3 = 2 ∧
  next_tab (previous_tab 2 3) 3 = 2 ∧
  next_tab (3 - 1) 3 = 0 ∧
  previous_tab 0 3 = 3 - 1 ∧
  Nat.iter (Z.to_nat 3) (λ c, next_tab c 3) 2 = 2.
Proof.
  apply (tab_navigation_wraps 2 3). lia.
Defined.

(** X4.  The gallery's twelve items fill a grid of three rows and four
    columns: every item's cell is inside the grid, the item's index is read
    back from its cell, and two different items never share a cell. *)
Theorem gallery_cells_distinct (i j : nat) :
  (i < 12)%nat → (j < 12)%nat →
  ((gallery_cell i).1 < 3)%nat ∧ ((gallery_cell i).2 < GALLERY_COLUMNS)%nat ∧
  ((gallery_cell i).1 * GALLERY_COLUMNS + (gallery_cell i).2)%nat = i ∧
  (gallery_cell i = gallery_cell j → i = j).
Proof.
  intros Hi Hj. unfold gallery_cell, GALLERY_COLUMNS. cbn [fst snd].
  pose proof (Nat.div_mod_eq i 4) as Hdi.
  pose proof (Nat.div_mod_eq j 4) as Hdj.
  pose proof (Nat.mod_upper_bound i 4).
  assert (i / 4 < 3)%nat by (apply Nat.Div0.div_lt_upper_bound; lia).
  repeat split; try lia.
  intros Heq.
  pose proof (f_equal fst Heq) as Hq. pose proof (f_equal snd Heq) as Hr.
  cbn [fst snd] in Hq, Hr. rewrite Hdi, Hdj. by rewrite Hq, Hr.
Qed.

Lemma gallery_cells_distinct_witness :
  ((gallery_cell 7).1 < 3)%nat ∧ ((gallery_cell 7).2 < GALLERY_COLUMNS)%nat ∧
  ((gallery_cell 7).1 * GALLERY_COLUMNS + (gallery_cell 7).2)%nat = 7%nat ∧
  (gallery_cell 7 = gallery_cell 11 → 7%nat = 11%nat).
Proof.
  apply (gallery_cells_distinct 7 11); lia.
Defined.

(** * Loading a directory, continued *)

Lemma load_directory_heap_lookup directory_path s (i : nat) :
  (i < 24)%nat →
  heap (state_of (load_directory directory_path s)) !! (length (heap s) + i)%nat
  = Some (loaded_record
            (os_path_join directory_path
               ("headshot_" +:+ format_03d (S i) +:+ ".jpg"))).
Proof.
  intros Hi. rewrite load_directory_state.
  cbn [heap set_heap set_headshot_data]. by apply loaded_record_lookup.
Qed.

Lemma load_directory_heap_old directory_path s r d0 :
  heap s !! r = Some d0 →
  heap (state_of (load_directory directory_path s)) !! r = Some d0.
Proof.
  intros Hr. rewrite load_directory_state.
  cbn [heap set_heap set_headshot_data]. by apply lookup_app_l_Some.
Qed.

Lemma load_directory_wf directory_path s :
  wf (state_of (load_directory directory_path s)).
Proof.
  rewrite load_directory_state. split.
  - apply NoDup_seq.
  - cbn [heap headshot_data set_heap set_headshot_data]. intros r Hr.
    apply elem_of_seq in Hr. rewrite length_app, length_fmap.
    unfold mock_files. rewrite length_fmap, length_seq. lia.
Qed.

Lemma load_directory_unselected directory_path s r :
  r ∈ headshot_data (state_of (load_directory directory_path s)) →
  is_selected_of (state_of (load_directory directory_path s)) r = false.
Proof.
  intros Hr.
  assert (∃ i, (i < 24)%nat ∧ r = (length (heap s) + i)%nat) as (i & Hi & ->).
  { rewrite load_directory_state in Hr.
    cbn [headshot_data set_heap set_headshot_data] in Hr.
    apply elem_of_seq in Hr. exists (r - length (heap s))%nat. lia. }
  unfold is_selected_of. by rewrite load_directory_heap_lookup.
Qed.

(** X5.  After [load_directory], from any state and for any directory, the
    collection is 24 distinct new records, one for each fabricated path in
    order, each unselected, with the fabricated metadata and no edits; no
    record is selected; and every record that existed before is as it
    was. *)
Theorem load_directory_fresh (directory_path : string) (s : State) :
  let s' := state_of (load_directory directory_path s) in
  wf s' ∧
  length (headshot_data s') = 24%nat ∧
  get_selected_images s' = [] ∧
  (∀ i, (i < 24)%nat →
     ∃ r, headshot_data s' !! i = Some r ∧
          heap s' !! r
          = Some {| file_path := os_path_join directory_path
                                   ("headshot_" +:+ format_03d (S i) +:+ ".jpg");
                    metadata := mock_metadata;
                    thumbnail_path := None;
                    is_selected := false;
                    edit_settings := ∅ |}) ∧
  (∀ r d0, heap s !! r = Some d0 → heap s' !! r = Some d0).
Proof.
  intros s'. split_and!.
  - apply load_directory_wf.
  - unfold s'. rewrite load_directory_state.
    cbn [headshot_data set_heap set_headshot_data]. by rewrite length_seq.
  - unfold s'. apply filter_none. intros r Hr.
    rewrite (load_directory_unselected _ _ _ Hr). discriminate.
  - intros i Hi. exists (length (heap s) + i)%nat. split.
    + unfold s'. rewrite load_directory_state.
      cbn [headshot_data set_heap set_headshot_data]. by apply lookup_seq_lt.
    + unfold s'. by rewrite load_directory_heap_lookup.
  - intros r d0. apply load_directory_heap_old.
Qed.

(** X6.  [load_directory] resets neither the gallery items nor the editor's
    and the hue tab's current image: they are as before the load, while no
    record that existed before is in the new collection.  So a gallery item
    that was highlighted stays highlighted over the new, unselected record
    at its position. *)
Theorem load_directory_keeps_views (directory_path : string) (s : State) :
  let s' := state_of (load_directory directory_path s) in
  gallery_items s' = gallery_items s ∧
  editor_current_image s' = editor_current_image s ∧
  editor_edit_settings s' = editor_edit_settings s ∧
  hue_current_image s' = hue_current_image s ∧
  (∀ r, (r < length (heap s))%nat → r ∉ headshot_data s') ∧
  (∀ i, (i < 24)%nat → gallery_items s !! i = Some true → ¬ in_sync s').
Proof.
  intros s'. subst s'. split_and!.
  - by rewrite load_directory_state.
  - by rewrite load_directory_state.
  - by rewrite load_directory_state.
  - by rewrite load_directory_state.
  - intros r Hr Hin. rewrite load_directory_state in Hin.
    cbn [headshot_data set_heap set_headshot_data] in Hin.
    apply elem_of_seq in Hin. lia.
  - intros i Hi Hitem Hsync. rewrite load_directory_state in Hsync.
    specialize (Hsync i (length (heap s) + i)%nat).
    cbn [headshot_data gallery_items set_heap set_headshot_data] in Hsync.
    rewrite Hitem in Hsync.
    specialize (Hsync (lookup_seq_lt _ _ _ Hi) (lookup_lt_Some _ _ _ Hitem)).
    unfold is_selected_of in Hsync. cbn [heap set_heap set_headshot_data] in Hsync.
    rewrite loaded_record_lookup in Hsync by done.
    discriminate Hsync.
Qed.

Lemma load_directory_keeps_views_witness :
  gallery_items (state_of (select_image 0 Qt_NoModifier loaded)) !! 0%nat
  = Some true ∧
  ¬ in_sync (state_of (load_directory "/other"
                         (state_of (select_image 0 Qt_NoModifier loaded)))).
Proof.
  split; [vm_compute; reflexivity|].
  apply (load_directory_keeps_views "/other"
           (state_of (select_image 0 Qt_NoModifier loaded))) with (i := 0%nat).
  - lia.
  - vm_compute. reflexivity.
Defined.

Lemma append_inj_r (p a b : string) : p +:+ a = p +:+ b → a = b.
Proof.
  induction p as [|c p IH]; cbn; [done|]. intros [= H]. by apply IH.
Qed.

Lemma os_path_join_inj (a b1 b2 : string) :
  String.prefix "/" b1 = false → String.prefix "/" b2 = false →
  os_path_join a b1 = os_path_join a b2 → b1 = b2.
Proof.
  intros H1 H2. unfold os_path_join. rewrite H1, H2.
  case_bool_decide; [done|].
  destruct (String.prefix "/" (String.rev a)); intros Heq;
    apply append_inj_r in Heq; [done|].
  by apply (append_inj_r "/") in Heq.
Qed.

Lemma headshot_names_distinct :
  Forall (λ i, Forall (λ j,
      "headshot_" +:+ format_03d i +:+ ".jpg"
      = "headshot_" +:+ format_03d j +:+ ".jpg" → i = j) (seq 1 24)) (seq 1 24).
Proof.
  apply (bool_decide_unpack
    (Forall (λ i, Forall (λ j,
       "headshot_" +:+ format_03d i +:+ ".jpg"
       = "headshot_" +:+ format_03d j +:+ ".jpg" → i = j) (seq 1 24)) (seq 1 24))).
  vm_compute. exact I.
Qed.

Lemma mock_files_NoDup directory_path : NoDup (mock_files directory_path).
Proof.
  unfold mock_files. apply NoDup_fmap_2_strong; [|apply NoDup_seq].
  intros i j Hi Hj Heq.
  apply os_path_join_inj in Heq; [|reflexivity..].
  pose proof (proj1 (Forall_forall _ _) headshot_names_distinct i Hi) as Hrow.
  by apply (proj1 (Forall_forall _ _) Hrow j Hj).
Qed.

Lemma load_directory_paths directory_path s :
  file_path_of (state_of (load_directory directory_path s))
    <$> headshot_data (state_of (load_directory directory_path s))
  = mock_files directory_path.
Proof.
  apply list_eq. intros i. rewrite list_lookup_fmap.
  rewrite (load_directory_state directory_path s) at 2.
  cbn [headshot_data set_heap set_headshot_data].
  unfold mock_files. rewrite list_lookup_fmap.
  destruct (decide (i < 24)%nat) as [Hi|Hi].
  - rewrite !lookup_seq_lt by done. cbn. f_equal.
    unfold file_path_of. by rewrite load_directory_heap_lookup.
  - by rewrite !lookup_seq_ge by lia.
Qed.

(** X7.  The paths of a scan are pairwise distinct, for every directory, so
    that in a loaded collection a record is identified by its path: the
    paths of the collection's records, in order, are the scanned paths, and
    no two records of the collection have the same path. *)
Theorem loaded_paths_distinct (directory_path : string) (s : State) :
  let s' := state_of (load_directory directory_path s) in
  NoDup (mock_files directory_path) ∧
  file_path_of s' <$> headshot_data s' = mock_files directory_path ∧
  (∀ i j ri rj,
     headshot_data s' !! i = Some ri → headshot_data s' !! j = Some rj →
     file_path_of s' ri = file_path_of s' rj → i = j).
Proof.
  intros s'. pose proof (mock_files_NoDup directory_path) as Hnd.
  pose proof (load_directory_paths directory_path s) as Hpaths. fold s' in Hpaths.
  split_and!; [done..|].
  intros i j ri rj Hi Hj Heq.
  rewrite <- Hpaths in Hnd.
  apply (NoDup_lookup _ i j (file_path_of s' ri) Hnd).
  - by rewrite list_lookup_fmap, Hi.
  - by rewrite list_lookup_fmap, Hj, Heq.
Qed.

(** X8.  Delivering an empty result is safe: the collection becomes empty,
    nothing is selected, and from then on every selection, whatever the
    index and the modifiers, only logs a warning, a submission does nothing
    and a change of tab does nothing. *)
Theorem empty_collection_is_safe (s : State) :
  let s' := state_of (emit (files_loaded []) s) in
  headshot_data s' = [] ∧
  get_selected_images s' = [] ∧
  (∀ index modifiers,
     select_image index modifiers s'
     = (tt, s', [Log WARNING "Image selection index out of bounds: {index}"
                   [AInt index]])) ∧
  submit_gallery_settings s' = (tt, s', []) ∧
  (∀ index, on_tab_changed index s' = (tt, s', [])).
Proof.
  intros s'.
  assert (headshot_data s' = []) as Hhd.
  { unfold s'. by destruct (files_loaded_run [] s) as [t ->]. }
  assert (get_selected_images s' = []) as Hsel.
  { unfold get_selected_images. by rewrite Hhd. }
  split_and!; [done..| | |].
  - intros index modifiers. apply select_image_out_of_bounds_run.
    unfold out_of_bounds. rewrite Hhd. cbn. lia.
  - unfold submit_gallery_settings. rewrite run_bind_unfold. unfold get at 1.
    by rewrite Hsel.
  - intros index. unfold on_tab_changed. rewrite run_bind_unfold. unfold get at 1.
    by rewrite Hsel.
Qed.

Lemma choose_directory_state directory s :
  directory ≠ "" →
  state_of (choose_directory directory s)
  = state_of (load_directory directory
      (set_settings (<["last_directory" := PStr directory]> (settings s))
         (set_dir_path_label directory (set_current_directory (Some directory) s)))).
Proof.
  intros Hd. unfold choose_directory. rewrite decide_False by done.
  rewrite !state_of_bind. reflexivity.
Qed.

(** X9.  A cancelled directory dialog (the empty path) changes nothing.  For
    any other path [choose_directory] makes it the current directory, shows
    it in the directory label, stores it as the [last_directory] setting and
    loads it: the collection is 24 new records with that directory's
    paths. *)
Theorem choose_directory_loads (directory : string) (s : State) :
  let s' := state_of (choose_directory directory s) in
  choose_directory "" s = (tt, s, []) ∧
  (directory ≠ "" →
   current_directory s' = Some directory ∧
   dir_path_label s' = directory ∧
   get_setting "last_directory" None s' = Some (PStr directory) ∧
   headshot_data s' = seq (length (heap s)) 24 ∧
   file_path_of s' <$> headshot_data s' = mock_files directory).
Proof.
  intros s'. split; [reflexivity|]. intros Hd.
  unfold s'. rewrite (choose_directory_state _ _ Hd).
  set (s0 := set_settings _ _).
  split_and!.
  - by rewrite load_directory_state.
  - by rewrite load_directory_state.
  - unfold get_setting. rewrite load_directory_state.
    cbn [settings set_heap set_headshot_data]. unfold s0.
    cbn [settings set_settings]. by rewrite lookup_insert_eq.
  - by rewrite load_directory_state.
  - apply load_directory_paths.
Qed.

Lemma choose_directory_loads_witness :
  let s' := state_of (choose_directory "/photos" initial_state) in
  current_directory s' = Some "/photos" ∧
  dir_path_label s' = "/photos" ∧
  get_setting "last_directory" None s' = Some (PStr "/photos") ∧
  headshot_data s' = seq (length (heap initial_state)) 24 ∧
  file_path_of s' <$> headshot_data s' = mock_files "/photos".
Proof.
  apply (choose_directory_loads "/photos" initial_state). discriminate.
Defined.

(** * Selection, continued *)

Lemma select_image_cases (index : Z) (s : State) :
  out_of_bounds index s ∨
  (¬ out_of_bounds index s ∧
   ∃ r, headshot_data s !! Z.to_nat index = Some r ∧
        (Z.to_nat index < length (gallery_items s))%nat).
Proof.
  destruct (decide (out_of_bounds index s)) as [Hoob|Hin]; [by left|right].
  split; [done|]. unfold out_of_bounds in Hin.
  destruct (lookup_lt_is_Some_2 (headshot_data s) (Z.to_nat index)) as [r Hr];
    [lia|].
  exists r. split; [done|lia].
Qed.

(** X10.  In a well-formed collection a selection keeps the gallery items
    in step with the records' flags, for every index and modifier; and a
    selection without the Control modifier, at an index within bounds, puts
    them in step even if they were not. *)
Theorem select_image_keeps_sync (index modifiers : Z) (s : State) :
  wf s →
  (in_sync s → in_sync (state_of (select_image index modifiers s))) ∧
  (modifiers ≠ Qt_ControlModifier → ¬ out_of_bounds index s →
   in_sync (state_of (select_image index modifiers s))).
Proof.
  intros Hwf.
  assert (modifiers ≠ Qt_ControlModifier → ¬ out_of_bounds index s →
          in_sync (state_of (select_image index modifiers s))) as Hsingle.
  { intros Hm Hin.
    destruct (select_image_cases index s) as [?|(_ & r & Hr & Hlt)];
      [done|].
    pose proof (wf_lookup _ _ _ Hwf Hr) as [d Hd].
    pose proof (lookup_lt_Some _ _ _ Hr) as Hlen.
    rewrite (select_image_single_run _ _ _ _ Hin Hr Hm).
    intros j rj Hj Hjlt. unfold state_of in *; cbn [fst snd] in *.
    rewrite is_selected_of_with_selection, single_heap_lookup.
    cbn [gallery_items with_selection set_gallery_items set_heap headshot_data]
      in Hj, Hjlt |- *.
    rewrite length_insert, clear_items_length in Hjlt.
    rewrite single_items_lookup by done.
    pose proof (lookup_lt_Some _ _ _ Hj) as Hjlen.
    destruct (decide (j = Z.to_nat index)) as [->|Hne].
    - rewrite Hr in Hj. injection Hj as <-.
      rewrite decide_True by done. by rewrite Hd.
    - assert (rj ≠ r) as Hrne.
      { intros ->. destruct Hwf as [Hnd _].
        by pose proof (NoDup_lookup _ _ _ _ Hnd Hj Hr). }
      rewrite decide_True by lia. rewrite decide_False by done.
      rewrite decide_True by (by eapply list_elem_of_lookup_2).
      destruct (wf_lookup _ _ _ Hwf Hj) as [dj Hdj]. by rewrite Hdj. }
  split; [|done]. intros Hsync.
  destruct (select_image_cases index s) as [Hoob|(Hin & r & Hr & Hlt)].
  - by rewrite (select_image_out_of_bounds_run _ _ _ Hoob).
  - destruct (decide (modifiers = Qt_ControlModifier)) as [->|Hm];
      [|by apply Hsingle].
    pose proof (wf_lookup _ _ _ Hwf Hr) as [d Hd].
    rewrite (select_image_multi_run _ _ _ Hin Hr).
    intros j rj Hj Hjlt. unfold state_of in *; cbn [fst snd] in *.
    rewrite is_selected_of_with_selection, multi_heap_lookup.
    cbn [gallery_items with_selection set_gallery_items set_heap headshot_data]
      in Hj, Hjlt |- *.
    rewrite length_insert in Hjlt.
    destruct (decide (j = Z.to_nat index)) as [->|Hne].
    + rewrite Hr in Hj. injection Hj as <-.
      rewrite list_lookup_insert_eq by done.
      by rewrite decide_True, Hd by done.
    + assert (rj ≠ r) as Hrne.
      { intros ->. destruct Hwf as [Hnd _].
        by pose proof (NoDup_lookup _ _ _ _ Hnd Hj Hr). }
      rewrite list_lookup_insert_ne by done.
      rewrite decide_False by done. by apply Hsync.
Qed.

Lemma select_image_keeps_sync_witness :
  in_sync (state_of (select_image 3 Qt_NoModifier
                       (state_of (load_directory "/other"
                          (state_of (select_image 0 Qt_NoModifier loaded)))))).
Proof.
  apply (select_image_keeps_sync 3 Qt_NoModifier
           (state_of (load_directory "/other"
              (state_of (select_image 0 Qt_NoModifier loaded))))).
  - apply load_directory_wf.
  - vm_compute. discriminate.
  - unfold out_of_bounds. vm_compute.
    intros [H|[H|H]]; first [discriminate H | by apply H].
Defined.

Lemma with_is_selected_same d : with_is_selected (is_selected d) d = d.
Proof. by destruct d. Qed.

(** X11.  Two Control-clicks on the same item undo each other: for every
    state and index, all records, the collection and the current selection
    are as before; in a well-formed collection whose gallery items were in
    step with the records, the whole state is as before. *)
Theorem select_image_toggle_twice (index : Z) (s : State) :
  let s2 := state_of (select_image index Qt_ControlModifier
                        (state_of (select_image index Qt_ControlModifier s))) in
  heap s2 = heap s ∧
  headshot_data s2 = headshot_data s ∧
  get_selected_images s2 = get_selected_images s ∧
  (wf s → in_sync s → s2 = s).
Proof.
  intros s2.
  destruct (select_image_cases index s)
    as [Hoob|(Hin & r & Hr & Hlt)].
  - assert (s2 = s) as ->; [|done].
    unfold s2. rewrite (select_image_out_of_bounds_run _ _ _ Hoob).
    unfold state_of; cbn [fst snd].
    by rewrite (select_image_out_of_bounds_run _ _ _ Hoob).
  - set (b := is_selected_of s r).
    set (s1 := with_selection (alter (with_is_selected (negb b)) r (heap s))
                 (<[Z.to_nat index := negb b]> (gallery_items s)) s).
    assert (state_of (select_image index Qt_ControlModifier s) = s1) as Hs1.
    { by rewrite (select_image_multi_run _ _ _ Hin Hr). }
    assert (¬ out_of_bounds index s1) as Hin1.
    { unfold out_of_bounds, s1. cbn. by rewrite length_insert. }
    assert (heap s2 = heap s) as Hheap.
    { unfold s2. rewrite Hs1.
      rewrite (select_image_multi_run index s1 r Hin1 Hr).
      unfold state_of; cbn [fst snd]. unfold s1 at 2.
      cbn [heap with_selection set_gallery_items set_heap].
      apply list_eq. intros r'.
      destruct (decide (r' = r)) as [->|Hne].
      - rewrite !list_lookup_alter_eq.
        unfold is_selected_of, s1, b, is_selected_of. cbn.
        rewrite list_lookup_alter_eq.
        destruct (heap s !! r) as [d|]; cbn; [|done].
        by rewrite negb_involutive, with_is_selected_twice, with_is_selected_same.
      - by rewrite !list_lookup_alter_ne by done. }
    assert (headshot_data s2 = headshot_data s) as Hhd.
    { unfold s2. rewrite Hs1.
      by rewrite (select_image_multi_run index s1 r Hin1 Hr). }
    split_and!; [done..| |].
    + unfold get_selected_images, is_selected_of. by rewrite Hhd, Hheap.
    + intros Hwf Hsync.
      pose proof (wf_lookup _ _ _ Hwf Hr) as [d Hd].
      assert (gallery_items s2 = gallery_items s) as Hg.
      { unfold s2. rewrite Hs1.
        rewrite (select_image_multi_run index s1 r Hin1 Hr).
        unfold state_of; cbn [fst snd].
        cbn [gallery_items with_selection set_gallery_items set_heap].
        change (gallery_items s1)
          with (<[Z.to_nat index := negb b]> (gallery_items s)).
        rewrite list_insert_insert_eq.
        apply list_insert_id. rewrite (Hsync _ _ Hr Hlt). f_equal.
        unfold is_selected_of, s1, b, is_selected_of. cbn.
        rewrite list_lookup_alter_eq, Hd. cbn. by rewrite negb_involutive. }
      assert (s2 = with_selection (heap s2) (gallery_items s2) s) as Hshape.
      { unfold s2. rewrite Hs1.
        by rewrite (select_image_multi_run index s1 r Hin1 Hr). }
      rewrite Hshape, Hheap, Hg. apply with_selection_id.
Qed.

Lemma gallery_items_initial : gallery_items initial_state = replicate 12 false.
Proof. vm_compute. reflexivity. Qed.

Lemma in_sync_after_load directory_path s :
  Forall (λ b, b = false) (gallery_items s) →
  in_sync (state_of (load_directory directory_path s)).
Proof.
  intros Hall. rewrite load_directory_state. intros i r Hr Hlt.
  cbn [headshot_data gallery_items set_heap set_headshot_data] in Hr, Hlt |- *.
  apply lookup_seq in Hr as [-> Hi].
  unfold is_selected_of. cbn [heap set_heap set_headshot_data].
  rewrite loaded_record_lookup by done. cbn.
  destruct (lookup_lt_is_Some_2 _ _ Hlt) as [b Hb]. rewrite Hb. f_equal.
  by apply (Forall_lookup_1 _ _ _ _ Hall Hb).
Qed.

Lemma in_sync_loaded : in_sync loaded.
Proof.
  apply in_sync_after_load. rewrite gallery_items_initial.
  by apply Forall_replicate.
Qed.

Lemma select_image_toggle_twice_witness :
  state_of (select_image 5 Qt_ControlModifier
              (state_of (select_image 5 Qt_ControlModifier loaded))) = loaded.
Proof.
  exact (proj2 (proj2 (proj2 (select_image_toggle_twice 5 loaded)))
           loaded_wf in_sync_loaded).
Defined.

(** * The editor *)

Lemma EditorTab_set_current_image_state image_data s :
  state_of (EditorTab_set_current_image image_data s)
  = set_editor_preview_label
      (match editor_preview_label s with
       | Some _ => Some ("Image Preview" +:+ nl +:+ file_path_of s image_data)
       | None => None
       end)
      (set_editor_edit_settings (edit_settings_of s image_data)
         (set_editor_current_image (Some image_data) s)).
Proof.
  destruct s as [h p st g hd eci ees [l|] hci hs hv hpl cd dpl]; reflexivity.
Qed.

Lemma HueTab_set_current_image_state image_data s :
  state_of (HueTab_set_current_image image_data s)
  = set_hue_preview_label
      (match hue_preview_label s with
       | Some _ =>
           match hue_slider s with
           | Some hue =>
               Some ("Hue Preview" +:+ nl +:+ file_path_of s image_data +:+ nl
                     +:+ "Hue: " +:+ str hue +:+ degree)
           | None => Some ("Hue Preview" +:+ nl +:+ "No image selected")
           end
       | None => None
       end)
      (set_hue_current_image (Some image_data) s).
Proof.
  destruct s as [h p st g hd eci ees epl hci [v|] hv [l|] cd dpl]; reflexivity.
Qed.

Lemma on_tab_changed_run index s :
  on_tab_changed index s
  = match get_selected_images s with
    | [] => (tt, s, [])
    | current_image :: _ =>
        if decide (index = 1) then EditorTab_set_current_image current_image s
        else if decide (index = 2) then HueTab_set_current_image current_image s
        else (tt, s, [])
    end.
Proof.
  unfold on_tab_changed. rewrite run_bind_unfold. unfold get at 1.
  destruct (get_selected_images s) as [|r rest]; [done|].
  repeat case_decide.
  - by destruct (EditorTab_set_current_image r s) as [[[] s'] t].
  - by destruct (HueTab_set_current_image r s) as [[[] s'] t].
  - done.
Qed.

(** X12.  A change of tab never touches a record, the collection or the
    gallery items.  With nothing selected, or for a tab other than the
    editor (1) and the hue tab (2), it does nothing at all.  Otherwise the
    first selected record, in collection order, becomes the current image of
    the tab that is opened, and the editor takes that record's settings. *)
Theorem on_tab_changed_sets_current (index : Z) (s : State) :
  let s' := state_of (on_tab_changed index s) in
  heap s' = heap s ∧ headshot_data s' = headshot_data s ∧
  gallery_items s' = gallery_items s ∧
  (get_selected_images s = [] ∨ (index ≠ 1 ∧ index ≠ 2) →
   on_tab_changed index s = (tt, s, [])) ∧
  (∀ first rest, get_selected_images s = first :: rest →
     (index = 1 →
      editor_current_image s' = Some first ∧
      editor_edit_settings s' = edit_settings_of s first ∧
      hue_current_image s' = hue_current_image s) ∧
     (index = 2 →
      hue_current_image s' = Some first ∧
      editor_current_image s' = editor_current_image s)).
Proof.
  intros s'. subst s'. rewrite on_tab_changed_run.
  destruct (get_selected_images s) as [|r rest] eqn:Hsel.
  - split_and!; first [done | intros first rest' [=]].
  - split_and!.
    + repeat case_decide; try done;
        by rewrite ?EditorTab_set_current_image_state,
             ?HueTab_set_current_image_state.
    + repeat case_decide; try done;
        by rewrite ?EditorTab_set_current_image_state,
             ?HueTab_set_current_image_state.
    + repeat case_decide; try done;
        by rewrite ?EditorTab_set_current_image_state,
             ?HueTab_set_current_image_state.
    + intros [[=]|[H1 H2]]. by rewrite !decide_False by done.
    + intros first rest' [= <- <-]. split.
      * intros ->. rewrite decide_True by done.
        by rewrite EditorTab_set_current_image_state.
      * intros ->. rewrite decide_False by done. rewrite decide_True by done.
        by rewrite HueTab_set_current_image_state.
Qed.

Lemma save_current_edits_heap s r :
  editor_current_image s = Some r →
  heap (state_of (save_current_edits s))
  = alter (with_edit_settings (editor_edit_settings s)) r (heap s).
Proof.
  destruct s as [h p st g hd [c|] ees epl hci hs hv hpl cd dpl];
    intros [= <-]; reflexivity.
Qed.

Lemma with_edit_settings_same d : with_edit_settings (edit_settings d) d = d.
Proof. by destruct d. Qed.

(** X13.  Opening a record in the editor and saving at once leaves every
    record as it was: the editor's copy of the settings is written back
    unchanged. *)
Theorem editor_load_save_round_trip (image_data : loc) (d : HeadshotData) (s : State) :
  heap s !! image_data = Some d →
  heap (state_of (save_current_edits
                    (state_of (EditorTab_set_current_image image_data s))))
  = heap s.
Proof.
  intros Hd. rewrite EditorTab_set_current_image_state.
  rewrite (save_current_edits_heap _ image_data) by reflexivity.
  cbn [heap editor_edit_settings set_editor_preview_label
       set_editor_edit_settings set_editor_current_image].
  apply list_eq. intros r'.
  destruct (decide (r' = image_data)) as [->|Hne].
  - rewrite list_lookup_alter_eq. unfold edit_settings_of. rewrite Hd. cbn.
    by rewrite with_edit_settings_same.
  - by rewrite list_lookup_alter_ne.
Qed.

Lemma editor_load_save_round_trip_witness :
  heap (state_of (save_current_edits
                    (state_of (EditorTab_set_current_image 3%nat loaded))))
  = heap loaded.
Proof.
  apply (editor_load_save_round_trip 3%nat
           (loaded_record "/photos/headshot_004.jpg") loaded).
  vm_compute. reflexivity.
Defined.

Lemma on_slider_changed_state parameter_name value s :
  ∃ preview,
    state_of (on_slider_changed parameter_name value s)
    = set_editor_preview_label preview
        (set_editor_edit_settings
           (<[parameter_name := PInt value]> (editor_edit_settings s)) s).
Proof.
  destruct s as [h p st g hd [c|] ees [l|] hci hs hv hpl cd dpl];
    eexists; reflexivity.
Qed.

(** X14.  A slider change is pending until it is saved: [on_slider_changed]
    changes no record, only the editor's settings, where the parameter now
    has the new value and every other key is as before.  After a slider
    change and a save, the current record's settings are the editor's: the
    settings it was opened with, with the parameter set to the new value;
    its path, metadata and selection flag, and every other record, are
    unchanged. *)
Theorem slider_change_then_save (image_data : loc) (d : HeadshotData)
    (parameter_name : string) (value : Z) (s : State) :
  heap s !! image_data = Some d →
  let s1 := state_of (EditorTab_set_current_image image_data s) in
  let s2 := state_of (on_slider_changed parameter_name value s1) in
  let s3 := state_of (save_current_edits s2) in
  heap s2 = heap s ∧
  editor_edit_settings s2 = <[parameter_name := PInt value]> (edit_settings d) ∧
  heap s3 !! image_data
  = Some (with_edit_settings (<[parameter_name := PInt value]> (edit_settings d)) d) ∧
  (∀ r, r ≠ image_data → heap s3 !! r = heap s !! r).
Proof.
  intros Hd s1 s2 s3. subst s1 s2 s3.
  rewrite EditorTab_set_current_image_state.
  set (s1 := set_editor_preview_label _ _).
  destruct (on_slider_changed_state parameter_name value s1) as [preview Hs2].
  rewrite Hs2.
  rewrite (save_current_edits_heap _ image_data) by reflexivity.
  cbn [heap editor_edit_settings set_editor_preview_label
       set_editor_edit_settings set_editor_current_image s1].
  unfold s1. cbn [heap editor_edit_settings set_editor_preview_label
       set_editor_edit_settings set_editor_current_image].
  unfold edit_settings_of. rewrite Hd. cbn [from_option].
  split_and!; [done..| |].
  - by rewrite list_lookup_alter_eq, Hd.
  - intros r Hne. by rewrite list_lookup_alter_ne.
Qed.

Lemma slider_change_then_save_witness :
  let s1 := state_of (EditorTab_set_current_image 3%nat loaded) in
  let s2 := state_of (on_slider_changed "Contrast" 25 s1) in
  let s3 := state_of (save_current_edits s2) in
  heap s2 = heap loaded ∧
  editor_edit_settings s2
  = <["Contrast" := PInt 25]> (edit_settings (loaded_record "/photos/headshot_004.jpg")) ∧
  heap s3 !! 3%nat
  = Some (with_edit_settings
            (<["Contrast" := PInt 25]>
               (edit_settings (loaded_record "/photos/headshot_004.jpg")))
            (loaded_record "/photos/headshot_004.jpg")) ∧
  (∀ r, r ≠ 3%nat → heap s3 !! r = heap loaded !! r).
Proof.
  apply (slider_change_then_save 3%nat (loaded_record "/photos/headshot_004.jpg")
           "Contrast" 25 loaded).
  vm_compute. reflexivity.
Defined.

Lemma filter_ext_in {A} (P Q : A → Prop) `{!∀ x, Decision (P x)}
    `{!∀ x, Decision (Q x)} (l : list A) :
  (∀ x, x ∈ l → (P x ↔ Q x)) → filter P l = filter Q l.
Proof.
  induction l as [|y l IH]; intros Hl; [done|].
  rewrite !filter_cons.
  rewrite IH by (intros x Hx; apply Hl; set_solver).
  destruct (decide (P y)) as [HP|HP], (decide (Q y)) as [HQ|HQ]; try done.
  - exfalso. apply HQ, Hl; [set_solver|done].
  - exfalso. apply HP, Hl; [set_solver|done].
Qed.

Lemma reset_editor_settings_state s :
  state_of (reset_editor_settings s)
  = set_heap (match editor_current_image s with
              | Some r => alter (with_edit_settings ∅) r
              | None => λ h, h
              end)
      (set_editor_edit_settings ∅ s).
Proof.
  destruct s as [h p st g hd [c|] ees epl hci hs hv hpl cd dpl]; reflexivity.
Qed.

(** X15.  [reset_editor_settings] empties the editor's settings and, when a
    current image is set, that record's settings too, at once and without a
    save; the record's path, metadata and selection flag, every other
    record, the collection and the current selection are unchanged.  With
    no current image no record changes. *)
Theorem reset_editor_settings_clears (s : State) :
  let s' := state_of (reset_editor_settings s) in
  editor_edit_settings s' = ∅ ∧
  headshot_data s' = headshot_data s ∧
  get_selected_images s' = get_selected_images s ∧
  (editor_current_image s = None → heap s' = heap s) ∧
  (∀ r d, editor_current_image s = Some r → heap s !! r = Some d →
     heap s' !! r = Some (with_edit_settings ∅ d) ∧
     ∀ r', r' ≠ r → heap s' !! r' = heap s !! r').
Proof.
  intros s'. subst s'. rewrite reset_editor_settings_state.
  cbn [heap headshot_data editor_edit_settings set_heap set_editor_edit_settings].
  split_and!; [done..| | |].
  - unfold get_selected_images, is_selected_of.
    cbn [heap headshot_data set_heap set_editor_edit_settings].
    apply list_filter_iff. intros r.
    destruct (editor_current_image s) as [c|]; [|done].
    destruct (decide (r = c)) as [->|Hne].
    + rewrite list_lookup_alter_eq. by destruct (heap s !! c).
    + by rewrite list_lookup_alter_ne.
  - by intros ->.
  - intros r d -> Hd. split.
    + by rewrite list_lookup_alter_eq, Hd.
    + intros r' Hne. by rewrite list_lookup_alter_ne.
Qed.

Lemma apply_similar_settings_run s :
  apply_similar_settings s
  = match editor_current_image s with
    | None => (tt, s, [])
    | Some r =>
        (tt,
         set_heap (λ h, h ++ [HeadshotData_init "similar_image_1.jpg";
                              HeadshotData_init "similar_image_2.jpg";
                              HeadshotData_init "similar_image_3.jpg"]) s,
         [ Api (get_similar_images_request (file_path_of s r));
           Log INFO "Found {len(response.data)} similar images" [AInt 3] ])
    end.
Proof.
  destruct s as [h p st g hd [c|] ees epl hci hs hv hpl cd dpl]; [|reflexivity].
  cbv beta iota zeta delta [apply_similar_settings get_similar_images mbind
    Run_bind bind mret Run_ret ret get event alloc logger set_heap
    heap presets settings gallery_items headshot_data editor_current_image
    editor_edit_settings editor_preview_label hue_current_image hue_slider
    hue_value hue_preview_label current_directory dir_path_label success data
    file_path_of].
  cbn [length]. rewrite <- !app_assoc. reflexivity.
Qed.

(** X16.  "Find Similar" applies no settings: [apply_similar_settings] asks
    the backend once for the current image, which creates three records
    that are not in the collection, and logs their number; every existing
    record, the collection, the editor's settings and the current selection
    are unchanged.  With no current image it does nothing. *)
Theorem apply_similar_settings_changes_nothing (s : State) :
  let s' := state_of (apply_similar_settings s) in
  (∀ r d, heap s !! r = Some d → heap s' !! r = Some d) ∧
  headshot_data s' = headshot_data s ∧
  editor_edit_settings s' = editor_edit_settings s ∧
  (wf s → get_selected_images s' = get_selected_images s) ∧
  (editor_current_image s = None → apply_similar_settings s = (tt, s, [])) ∧
  (∀ r, editor_current_image s = Some r →
     length (heap s') = (length (heap s) + 3)%nat ∧
     api_requests (trace (apply_similar_settings s))
     = [get_similar_images_request (file_path_of s r)]).
Proof.
  intros s'. subst s'. rewrite apply_similar_settings_run.
  destruct (editor_current_image s) as [c|]; unfold state_of, trace;
    cbn [fst snd].
  - split_and!.
    + intros r d Hd. cbn [heap set_heap]. by apply lookup_app_l_Some.
    + done.
    + done.
    + intros [_ Hval]. unfold get_selected_images, is_selected_of.
      cbn [heap headshot_data set_heap].
      apply filter_ext_in. intros r Hr.
      by rewrite lookup_app_l by (by apply Hval).
    + done.
    + intros r [= <-]. cbn [heap set_heap]. by rewrite length_app.
  - split_and!; first [done | intros r [=]].
Qed.

(** * Processing and presets, continued *)

Lemma set_editor_preview_label_same s :
  set_editor_preview_label (editor_preview_label s) s = s.
Proof. by destruct s. Qed.

Lemma process_single_image_run image_data settings s :
  ∃ preview t,
    process_single_image image_data settings s
    = (tt, set_editor_preview_label preview s, t) ∧
    processed_paths t = [file_path_of s image_data] ∧
    api_requests t = [].
Proof.
  destruct s as [h p st g hd [c|] ees [l|] hci hs hv hpl cd dpl];
    do 2 eexists; (split; [reflexivity|split; reflexivity]).
Qed.

Lemma processed_paths_app t1 t2 :
  processed_paths (t1 ++ t2) = processed_paths t1 ++ processed_paths t2.
Proof. apply omap_app. Qed.

Lemma api_requests_app t1 t2 :
  api_requests (t1 ++ t2) = api_requests t1 ++ api_requests t2.
Proof. apply omap_app. Qed.

Lemma process_batch_loop total settings images : ∀ i s,
  ∃ preview t,
    for_each i images (λ i image_data,
      emit (processing_progress (Ratio (i + 1) total));;
      process_single_image image_data settings) s
    = (tt, set_editor_preview_label preview s, t) ∧
    processed_paths t = file_path_of s <$> images ∧
    api_requests t = [].
Proof.
  induction images as [|r images IH]; intros i s.
  - exists (editor_preview_label s), []. cbn.
    by rewrite set_editor_preview_label_same.
  - destruct (process_single_image_run r settings s) as (p1 & t1 & H1 & Hp1 & Ha1).
    destruct (IH (S i) (set_editor_preview_label p1 s)) as (p2 & t2 & H2 & Hp2 & Ha2).
    exists p2, ([Emit (processing_progress (Ratio (i + 1) total));
                 Log INFO "Processing progress: {progress}%"
                   [AProgress (Ratio (i + 1) total)]] ++ t1 ++ t2).
    split; [|split].
    + cbn [for_each].
      assert ((emit (processing_progress (Ratio (i + 1) total));;
               process_single_image r settings) s
              = (tt, set_editor_preview_label p1 s,
                 [Emit (processing_progress (Ratio (i + 1) total));
                  Log INFO "Processing progress: {progress}%"
                    [AProgress (Ratio (i + 1) total)]] ++ t1)) as Hstep.
      { by rewrite (run_bind (emit (processing_progress (Ratio (i + 1) total)))
                      (λ _, process_single_image r settings)
                      s tt s _ tt _ t1 eq_refl H1). }
      rewrite (run_bind _ _ _ _ _ _ _ _ _ Hstep H2).
      by rewrite <- app_assoc.
    + rewrite !processed_paths_app, Hp1, Hp2. reflexivity.
    + rewrite !api_requests_app, Ha1, Ha2. reflexivity.
Qed.

Lemma apply_batch_edits_run images settings s :
  ∃ preview t,
    apply_batch_edits images settings s
    = (tt, set_editor_preview_label preview s, t) ∧
    processed_paths t = file_path_of s <$> images ∧
    api_requests t = [] ∧
    last t = Some (Print "Operation '{operation_name}' completed with result: {type(result)}"
                     [AStr "batch_edit"; AStr "<class 'list'>"]).
Proof.
  destruct (process_batch_loop (length images) settings images 0 s)
    as (p & t & H & Hp & Ha).
  exists p,
    ([Print "Batch processing: {len(images)} images"
        [AInt (Z.of_nat (length images))]] ++ t ++
     [Emit (operation_completed "batch_edit" images);
      Print "Operation '{operation_name}' completed with result: {type(result)}"
        [AStr "batch_edit"; AStr "<class 'list'>"]]).
  split_and!.
  - unfold apply_batch_edits, process_batch.
    assert ((print "Batch processing: {len(images)} images"
               [AInt (Z.of_nat (length images))];;
             for_each 0 images (λ i image_data,
               emit (processing_progress (Ratio (i + 1) (length images)));;
               process_single_image image_data settings)) s
            = (tt, set_editor_preview_label p s,
               [Print "Batch processing: {len(images)} images"
                  [AInt (Z.of_nat (length images))]] ++ t)) as Hbatch.
    { by rewrite (run_bind
                    (print "Batch processing: {len(images)} images"
                       [AInt (Z.of_nat (length images))])
                    (λ _, for_each 0 images (λ i image_data,
                       emit (processing_progress (Ratio (i + 1) (length images)));;
                       process_single_image image_data settings))
                    s tt s _ tt _ t eq_refl H). }
    by rewrite (run_bind _ (λ _, emit (operation_completed "batch_edit" images))
                  s tt _ _ tt _ _ Hbatch eq_refl).
  - rewrite !processed_paths_app, Hp. cbn. by rewrite app_nil_r.
  - rewrite !api_requests_app, Ha. reflexivity.
  - rewrite app_assoc. by rewrite last_app.
Qed.

(** X17.  A batch is processed image by image, in the order given, each
    image exactly once, with no request to the backend client; the records,
    the collection and the gallery items are unchanged, whatever the
    settings; the last thing that happens is the completion notice. *)
Theorem apply_batch_edits_in_order (images : list loc) (settings : Settings)
    (s : State) :
  let s' := state_of (apply_batch_edits images settings s) in
  let t := trace (apply_batch_edits images settings s) in
  processed_paths t = file_path_of s <$> images ∧
  api_requests t = [] ∧
  last t = Some (Print "Operation '{operation_name}' completed with result: {type(result)}"
                   [AStr "batch_edit"; AStr "<class 'list'>"]) ∧
  heap s' = heap s ∧ headshot_data s' = headshot_data s ∧
  gallery_items s' = gallery_items s.
Proof.
  destruct (apply_batch_edits_run images settings s) as (p & t & H & Hp & Ha & Hl).
  cbn zeta. rewrite H. by unfold state_of, trace; cbn [fst snd].
Qed.

Lemma submit_gallery_settings_run s :
  submit_gallery_settings s
  = if decide (get_selected_images s = []) then (tt, s, [])
    else apply_batch_edits (get_selected_images s) gallery_form_settings s.
Proof.
  unfold submit_gallery_settings. rewrite run_bind_unfold. unfold get at 1.
  case_decide; [done|].
  by destruct (apply_batch_edits _ _ s) as [[[] s'] t].
Qed.

(** X18.  [submit_gallery_settings] processes exactly the selected records,
    in collection order, with the form's settings, and sends nothing to the
    backend client; afterwards the same records are selected. *)
Theorem submit_gallery_settings_processes_selection (s : State) :
  let s' := state_of (submit_gallery_settings s) in
  let t := trace (submit_gallery_settings s) in
  processed_paths t = file_path_of s <$> get_selected_images s ∧
  api_requests t = [] ∧
  get_selected_images s' = get_selected_images s.
Proof.
  cbn zeta. rewrite submit_gallery_settings_run. case_decide as Hsel.
  - unfold state_of, trace; cbn [fst snd]. by rewrite Hsel.
  - destruct (apply_batch_edits_run (get_selected_images s) gallery_form_settings s)
      as (p & t & H & Hp & Ha & _).
    rewrite H. by unfold state_of, trace; cbn [fst snd].
Qed.

Lemma apply_preset_loop preset_name parameters s :
  presets s !! preset_name = Some parameters →
  ∀ (targets : list loc) i,
  ∃ t,
    for_each i targets (λ _ image_data,
      PresetManager_apply_preset preset_name image_data;; mret tt) s
    = (tt, s, t) ∧
    api_requests t
    = (λ r, apply_preset_request (file_path_of s r) preset_name) <$> targets.
Proof.
  intros Hp targets. induction targets as [|r targets IH]; intros i.
  - by exists [].
  - destruct (IH (S i)) as (t & Ht & Ha).
    pose proof (run_bind (PresetManager_apply_preset preset_name r)
                  (λ _, mret tt) s true s _ tt s []
                  (apply_preset_known_run _ r _ _ Hp) eq_refl) as Hstep.
    eexists. split.
    + cbn [for_each]. exact (run_bind _ _ s tt s _ tt s t Hstep Ht).
    + rewrite !api_requests_app, Ha. reflexivity.
Qed.

(** X19.  Applying a preset of the catalog to the selection sends exactly
    one request to the backend for each selected record, in collection
    order, and changes nothing in the state. *)
Theorem apply_preset_to_selected_requests (preset_name : string)
    (parameters : Settings) (s : State) :
  get_preset_settings preset_name s = Some parameters →
  state_of (apply_preset_to_selected preset_name s) = s ∧
  api_requests (trace (apply_preset_to_selected preset_name s))
  = (λ r, apply_preset_request (file_path_of s r) preset_name)
      <$> get_selected_images s.
Proof.
  intros Hp.
  destruct (apply_preset_loop preset_name parameters s Hp
              (get_selected_images s) 0) as (t & Ht & Ha).
  assert (apply_preset_to_selected preset_name s = (tt, s, t)) as ->.
  { unfold apply_preset_to_selected. rewrite run_bind_unfold. unfold get at 1.
    by rewrite Ht. }
  done.
Qed.

Lemma apply_preset_to_selected_requests_witness :
  let s := state_of (select_image 1 Qt_ControlModifier
                       (state_of (select_image 4 Qt_NoModifier loaded))) in
  state_of (apply_preset_to_selected "Natural Look" s) = s ∧
  api_requests (trace (apply_preset_to_selected "Natural Look" s))
  = (λ r, apply_preset_request (file_path_of s r) "Natural Look")
      <$> get_selected_images s.
Proof.
  apply (apply_preset_to_selected_requests "Natural Look"
           (<["brightness" := PInt 5]> (<["contrast" := PInt 5]>
              (<["saturation" := PInt 2]> ∅)))).
  vm_compute. reflexivity.
Defined.

(** X20.  [save_image] always succeeds: it sends one save request and emits
    [file_saved] with the same path, which is the output path when one is
    given and not empty, and the record's own path otherwise; the state is
    unchanged. *)
Theorem save_image_path (image_data : loc) (output_path : option string) (s : State) :
  let save_path :=
    match output_path with
    | Some p => if decide (p = "") then file_path_of s image_data else p
    | None => file_path_of s image_data
    end in
  save_image image_data output_path s
  = (true, s, [Api (save_edited_image_request save_path);
               Emit (file_saved save_path)]) ∧
  (output_path = None ∨ output_path = Some "" → save_path = file_path_of s image_data) ∧
  (∀ p, output_path = Some p → p ≠ "" → save_path = p).
Proof.
  cbn zeta. split_and!.
  - unfold save_image, save_edited_image.
    cbv beta iota zeta delta [mbind Run_bind bind mret Run_ret ret get event
      emit success data].
    rewrite lookup_insert_eq. reflexivity.
  - intros [->| ->]; [done|]. by rewrite decide_True.
  - intros p -> Hp. by rewrite decide_False.
Qed.

(** * Invariants of the event loop, continued *)

(** ** The directory label *)

Lemma directory_kept_modify_frame hd h (f : State → State) :
  (∀ s, current_directory (f s) = current_directory s ∧
        dir_path_label (f s) = dir_path_label s ∧
        headshot_data (f s) = headshot_data s ∧ heap (f s) = heap s) →
  inv (directory_kept hd h) (modify f).
Proof.
  intros Hf s (Hshown & Hhd & Hh). destruct (Hf s) as (Hc & Hl & Hhd' & Hh').
  unfold directory_kept, directory_shown, state_of, modify; cbn [fst snd].
  by rewrite Hc, Hl, Hhd', Hh'.
Qed.

Ltac directory_kept_leaf :=
  idtac;
  match goal with
  | |- inv _ (modify _) =>
      apply directory_kept_modify_frame; intros ?; split_and!; reflexivity
  end.

Lemma directory_kept_load_headshots hd h : inv (directory_kept hd h) load_headshots.
Proof.
  unfold load_headshots.
  apply inv_get_bind. intros s0 _.
  apply inv_bind.
  - destruct (get_selected_images s0); inv_steps directory_kept_leaf.
  - intros _. apply inv_get_bind. intros s1 (Hshown & _ & _).
    destruct Hshown as [[Hc Hl]|(d & Hd & Hc & Hl)]; rewrite Hc.
    + rewrite decide_True by done. apply inv_ret.
    + rewrite decide_False by done. apply inv_ret.
Qed.

Lemma directory_shown_modify_frame (f : State → State) :
  (∀ s, current_directory (f s) = current_directory s ∧
        dir_path_label (f s) = dir_path_label s) →
  inv directory_shown (modify f).
Proof.
  intros Hf s Hshown. destruct (Hf s) as (Hc & Hl).
  unfold directory_shown, state_of, modify; cbn [fst snd]. by rewrite Hc, Hl.
Qed.

Lemma directory_shown_alloc d : inv directory_shown (alloc d).
Proof. by intros s Hs. Qed.

Lemma directory_shown_load_directory directory_path :
  inv directory_shown (load_directory directory_path).
Proof. intros s Hs. by rewrite load_directory_state. Qed.

Lemma directory_shown_hue_frame : hue_frame directory_shown.
Proof.
  split_and!; intros ?; apply directory_shown_modify_frame; intros ?; split; reflexivity.
Qed.

Ltac directory_shown_leaf :=
  idtac;
  first
    [ hue_slots directory_shown_hue_frame
    | match goal with
      | |- inv _ (alloc _) => apply directory_shown_alloc
      | |- inv _ (load_directory _) => apply directory_shown_load_directory
      | |- inv _ (write_is_selected _ _) =>
          apply directory_shown_modify_frame; intros ?; split; reflexivity
      | |- inv _ (write_edit_settings _ _) =>
          apply directory_shown_modify_frame; intros ?; split; reflexivity
      | |- inv _ (modify _) =>
          apply directory_shown_modify_frame; intros ?; split; reflexivity
      end ].

Lemma directory_shown_perform int a : inv directory_shown (perform int a).
Proof.
  destruct a; cbn [perform]; try (inv_steps directory_shown_leaf; fail).
  - (* choose_directory *)
    intros s Hs. destruct (decide (directory = "")) as [->|Hd]; [done|].
    rewrite (choose_directory_state _ _ Hd), load_directory_state.
    right. by exists directory.
  - (* load_headshots *)
    intros s Hs.
    by apply (directory_kept_load_headshots (headshot_data s) (heap s) s).
Qed.

Lemma directory_shown_initial_state : directory_shown initial_state.
Proof. by left. Qed.

(** X21.  In every state the user's actions lead to, the directory label
    shows the current directory: either no directory has been chosen and
    the label reads "No directory selected", or the label is the chosen,
    non-empty path.  So the branch of [load_headshots] that loads the
    label's directory is never taken: the button never changes the
    collection or a record. *)
Theorem load_headshots_never_loads (int : string → option Z) (actions : list Action) :
  let s := run_actions int actions initial_state in
  directory_shown s ∧
  headshot_data (state_of (load_headshots s)) = headshot_data s ∧
  heap (state_of (load_headshots s)) = heap s.
Proof.
  intros s.
  assert (directory_shown s) as Hs.
  { apply inv_run_actions; [|apply directory_shown_initial_state].
    intros a _. apply directory_shown_perform. }
  split; [done|].
  by destruct (directory_kept_load_headshots (headshot_data s) (heap s) s)
    as (_ & ? & ?).
Qed.

(** ** Records are never replaced *)

Lemma keeps_records_refl s : keeps_records s s.
Proof. intros r d Hr. by exists d. Qed.

Lemma keeps_records_modify_frame s0 (f : State → State) :
  (∀ s, heap (f s) = heap s) → inv (keeps_records s0) (modify f).
Proof.
  intros Hf s Hs r d0 Hr. unfold state_of, modify; cbn [fst snd].
  rewrite Hf. by apply Hs.
Qed.

Lemma keeps_records_alter s0 (f : HeadshotData → HeadshotData) (r : loc) :
  (∀ d, file_path (f d) = file_path d ∧ metadata (f d) = metadata d) →
  inv (keeps_records s0) (modify (set_heap (alter f r))).
Proof.
  intros Hf s Hs r' d0 Hr'. destruct (Hs r' d0 Hr') as (d & Hd & Hp & Hm).
  unfold state_of, modify; cbn [fst snd heap set_heap].
  destruct (decide (r' = r)) as [->|Hne].
  - exists (f d). rewrite list_lookup_alter_eq, Hd. destruct (Hf d) as [-> ->].
    done.
  - exists d. by rewrite list_lookup_alter_ne.
Qed.

Lemma keeps_records_alloc s0 d : inv (keeps_records s0) (alloc d).
Proof.
  intros s Hs r d0 Hr. destruct (Hs r d0 Hr) as (d' & Hd & Hp & Hm).
  exists d'. split; [|done].
  unfold state_of, alloc; cbn [fst snd heap set_heap].
  by apply lookup_app_l_Some.
Qed.

Lemma keeps_records_load_directory s0 directory_path :
  inv (keeps_records s0) (load_directory directory_path).
Proof.
  intros s Hs r d0 Hr. destruct (Hs r d0 Hr) as (d' & Hd & Hp & Hm).
  exists d'. split; [|done]. by apply load_directory_heap_old.
Qed.

Lemma keeps_records_hue_frame s0 : hue_frame (keeps_records s0).
Proof.
  split_and!; intros ?; apply keeps_records_modify_frame; intros ?; reflexivity.
Qed.

Ltac keeps_records_leaf :=
  idtac;
  first
    [ hue_slots keeps_records_hue_frame
    | match goal with
      | |- inv _ (write_is_selected _ _) =>
          apply keeps_records_alter; intros ?; split; reflexivity
      | |- inv _ (write_edit_settings _ _) =>
          apply keeps_records_alter; intros ?; split; reflexivity
      | |- inv _ (alloc _) => apply keeps_records_alloc
      | |- inv _ (load_directory _) => apply keeps_records_load_directory
      | |- inv _ (modify _) =>
          apply keeps_records_modify_frame; intros ?; reflexivity
      end ].

Lemma keeps_records_perform s0 int a : inv (keeps_records s0) (perform int a).
Proof.
  destruct a; cbn [perform]; inv_steps keeps_records_leaf.
Qed.

(** X22.  No user action replaces a record or changes the path or the
    metadata of one: a reference to a record that exists before a sequence
    of actions leads to a record with the same path and metadata after it.
    Only the selection flag and the adjustment mapping of a record are ever
    written after it is loaded. *)
Theorem records_keep_identity (int : string → option Z) (actions : list Action)
    (s : State) :
  keeps_records s (run_actions int actions s).
Proof.
  apply inv_run_actions; [|apply keeps_records_refl].
  intros a _. apply keeps_records_perform.
Qed.

(** ** Only images of the gallery are selected *)

Lemma selection_shown_modify_frame n (f : State → State) :
  (∀ s, heap (f s) = heap s ∧ headshot_data (f s) = headshot_data s ∧
        gallery_items (f s) = gallery_items s) →
  inv (selection_shown n) (modify f).
Proof.
  intros Hf s Hs. destruct (Hf s) as (Hh & Hhd & Hg).
  unfold selection_shown, wf, selected_have_items, is_selected_of, state_of,
    modify in *; cbn [fst snd]. by rewrite Hh, Hhd, Hg.
Qed.

Lemma selection_shown_alter n (f : HeadshotData → HeadshotData) (r : loc) :
  (∀ d, is_selected (f d) = is_selected d) →
  inv (selection_shown n) (modify (set_heap (alter f r))).
Proof.
  intros Hf s (Hwf & Hsel & Hlen). split_and!.
  - by apply wf_alter.
  - intros i r' Hi Hr'. apply (Hsel i r' Hi).
    revert Hr'. unfold is_selected_of, state_of, modify;
      cbn [fst snd heap set_heap].
    destruct (decide (r' = r)) as [->|Hne].
    + rewrite list_lookup_alter_eq. destruct (heap s !! r); [|done].
      cbn. by rewrite Hf.
    + by rewrite list_lookup_alter_ne.
  - done.
Qed.

Lemma selection_shown_alloc n d : inv (selection_shown n) (alloc d).
Proof.
  intros s (Hwf & Hsel & Hlen). split_and!.
  - by apply wf_alloc.
  - intros i r Hi Hr. apply (Hsel i r Hi).
    revert Hr. unfold is_selected_of, state_of, alloc;
      cbn [fst snd heap set_heap].
    destruct (wf_lookup _ _ _ Hwf Hi) as [d' Hd'].
    by rewrite (lookup_app_l_Some _ _ _ _ Hd'), Hd'.
  - done.
Qed.

Lemma selection_shown_load_directory n directory_path :
  inv (selection_shown n) (load_directory directory_path).
Proof.
  intros s (Hwf & Hsel & Hlen). split_and!.
  - apply load_directory_wf.
  - intros i r Hi Hr.
    rewrite load_directory_unselected in Hr; [done|].
    by eapply list_elem_of_lookup_2.
  - by rewrite load_directory_state.
Qed.

Lemma selection_shown_select_image n index modifiers :
  inv (selection_shown n) (select_image index modifiers).
Proof.
  intros s (Hwf & Hsel & Hlen).
  destruct (select_image_cases index s) as [Hoob|(Hin & r & Hr & Hlt)].
  { by rewrite (select_image_out_of_bounds_run _ _ _ Hoob). }
  pose proof (wf_lookup _ _ _ Hwf Hr) as [d Hd].
  destruct (decide (modifiers = Qt_ControlModifier)) as [->|Hm].
  - rewrite (select_image_multi_run _ _ _ Hin Hr).
    unfold state_of; cbn [fst snd]. split_and!.
    + by apply (wf_alter _ r s).
    + intros j rj Hj.
      rewrite is_selected_of_with_selection, multi_heap_lookup.
      cbn [gallery_items with_selection set_gallery_items set_heap
           headshot_data] in Hj |- *.
      rewrite length_insert. case_decide as Heq.
      * subst rj. intros _. destruct Hwf as [Hnd _].
        by rewrite (NoDup_lookup _ _ _ _ Hnd Hj Hr).
      * apply (Hsel j rj Hj).
    + cbn [gallery_items with_selection set_gallery_items set_heap].
      by rewrite length_insert.
  - rewrite (select_image_single_run _ _ _ _ Hin Hr Hm).
    unfold state_of; cbn [fst snd]. split_and!.
    + destruct Hwf as [Hnd Hval]. split; [done|].
      cbn [heap headshot_data with_selection set_gallery_items set_heap].
      intros r' Hr'. rewrite length_alter, clear_heap_length. by apply Hval.
    + intros j rj Hj.
      rewrite is_selected_of_with_selection, single_heap_lookup.
      cbn [gallery_items with_selection set_gallery_items set_heap
           headshot_data] in Hj |- *.
      rewrite length_insert, clear_items_length. case_decide as Heq.
      * subst rj. intros _. destruct Hwf as [Hnd _].
        by rewrite (NoDup_lookup _ _ _ _ Hnd Hj Hr).
      * rewrite decide_True by (by eapply list_elem_of_lookup_2).
        destruct (heap s !! rj); done.
    + cbn [gallery_items with_selection set_gallery_items set_heap].
      by rewrite length_insert, clear_items_length.
Qed.

Lemma selection_shown_hue_frame n : hue_frame (selection_shown n).
Proof.
  split_and!; intros ?; apply selection_shown_modify_frame; intros ?; split_and!; reflexivity.
Qed.

Ltac selection_shown_leaf :=
  idtac;
  first
    [ hue_slots selection_shown_hue_frame
    | match goal with
      | |- inv _ (select_image _ _) => apply selection_shown_select_image
      | |- inv _ (write_edit_settings _ _) =>
          apply selection_shown_alter; intros ?; reflexivity
      | |- inv _ (alloc _) => apply selection_shown_alloc
      | |- inv _ (load_directory _) => apply selection_shown_load_directory
      | |- inv _ (modify _) =>
          apply selection_shown_modify_frame; intros ?; split_and!; reflexivity
      end ].

Lemma selection_shown_perform n int a : inv (selection_shown n) (perform int a).
Proof.
  destruct a; cbn [perform]; inv_steps selection_shown_leaf.
Qed.

Lemma selection_shown_initial_state : selection_shown 12 initial_state.
Proof.
  split_and!.
  - apply wf_initial_state.
  - change (headshot_data initial_state) with (@nil loc). intros i r Hi.
    discriminate Hi.
  - by rewrite gallery_items_initial.
Qed.

Lemma filter_within {A} (P : A → Prop) `{!∀ x, Decision (P x)} (l : list A)
    (n : nat) :
  (∀ i x, l !! i = Some x → P x → (i < n)%nat) →
  (length (filter P l) ≤ n)%nat.
Proof.
  intros Hl. rewrite <- (take_drop n l), filter_app.
  rewrite (filter_none P (drop n l)).
  - rewrite app_nil_r. etrans; [apply length_filter|].
    rewrite length_take. lia.
  - intros x Hx HP. apply list_elem_of_lookup in Hx as [i Hi].
    rewrite lookup_drop in Hi. specialize (Hl _ _ Hi HP). lia.
Qed.

(** X23.  The gallery has twelve items whatever the user does, and only a
    record at one of the first twelve positions of the collection is ever
    selected: of the twenty-four images a directory load gives, at most
    twelve are in the selection. *)
Theorem selection_within_gallery (int : string → option Z) (actions : list Action) :
  let s := run_actions int actions initial_state in
  length (gallery_items s) = 12%nat ∧
  (∀ i r, headshot_data s !! i = Some r → is_selected_of s r = true →
          (i < 12)%nat) ∧
  (length (get_selected_images s) ≤ 12)%nat.
Proof.
  intros s.
  assert (selection_shown 12 s) as (Hwf & Hsel & Hlen).
  { apply inv_run_actions; [|apply selection_shown_initial_state].
    intros a _. apply selection_shown_perform. }
  unfold selected_have_items in Hsel. rewrite Hlen in Hsel.
  split_and!; [done|done|].
  unfold get_selected_images. by apply filter_within.
Qed.
